(** * Spreadsheet analysis pipeline (index.py): column names, cleaning,
      aggregation, inconsistency checks and dashboards.

    The script is one linear Streamlit page.  Its own logic is the column
    normaliser [make_unique], the order of the pandas calls of the cleaning
    step, the two [groupby] summaries, the two inconsistency checks and the
    two dashboards.  The pandas and Streamlit calls are modelled by what
    they do on the three kinds of cell the page distinguishes (text, number,
    missing); every such model says which call it stands for.

    Strings are Python [str] values restricted to ASCII; numbers are
    integers (a spreadsheet's whole-number cells). *)

From Stdlib Require Import ZArith Ascii String List Lia.
From stdpp Require Import base option list gmap strings pretty sorting.

(** ** Python string methods used by the page *)

Module PyStr.

(** [str.isspace] on an ASCII code point: tab, line feed, vertical tab,
    form feed, carriage return, the four separators 0x1c-0x1f, space. *)
Definition is_space (c : ascii) : bool :=
  let n := nat_of_ascii c in
  ((9 <=? n) && (n <=? 13)) || ((28 <=? n) && (n <=? 32)).

Definition is_upper (c : ascii) : bool :=
  let n := nat_of_ascii c in (65 <=? n) && (n <=? 90).

Definition is_lower (c : ascii) : bool :=
  let n := nat_of_ascii c in (97 <=? n) && (n <=? 122).

Definition is_cased (c : ascii) : bool := is_upper c || is_lower c.

Definition to_upper (c : ascii) : ascii :=
  if is_lower c then ascii_of_nat (nat_of_ascii c - 32) else c.

Definition to_lower (c : ascii) : ascii :=
  if is_upper c then ascii_of_nat (nat_of_ascii c + 32) else c.

(** [s.lstrip()] *)
Fixpoint lstrip (s : string) : string :=
  match s with
  | EmptyString => EmptyString
  | String c rest => if is_space c then lstrip rest else s
  end.

(** Nothing to trim on the left. *)
Definition trimmed_left (s : string) : Prop :=
  match s with
  | EmptyString => True
  | String c _ => is_space c = false
  end.

(** [s.rstrip()]: a character is dropped when it is white space and
    everything after it has been dropped. *)
Fixpoint rstrip (s : string) : string :=
  match s with
  | EmptyString => EmptyString
  | String c rest =>
      match rstrip rest with
      | EmptyString => if is_space c then EmptyString else String c EmptyString
      | kept => String c kept
      end
  end.

(** [s.strip()] *)
Definition strip (s : string) : string := rstrip (lstrip s).

(** [s.title()]: a character that follows a cased character is
    lower-cased, any other is title-cased (upper-cased, in ASCII). *)
Fixpoint title_from (previous_is_cased : bool) (s : string) : string :=
  match s with
  | EmptyString => EmptyString
  | String c rest =>
      String (if previous_is_cased then to_lower c else to_upper c)
             (title_from (is_cased c) rest)
  end.

Definition title (s : string) : string := title_from false s.

End PyStr.

(** ** Column-name normaliser (lines 53-67) *)

(** The f-string [f"{col}_{seen[col]}"]. *)
Definition suffixed (col : string) (n : nat) : string :=
  col +:+ "_" +:+ pretty n.

(** The [for col in cols] loop of [make_unique]; [seen] is the dict and
    [result] the list being appended to. *)
Fixpoint make_unique_loop (cols : list string) (seen : gmap string nat)
    (result : list string) : list string :=
  match cols with
  | [] => result
  | col :: rest =>
      match seen !! col with
      | None => make_unique_loop rest (<[col := 0]> seen) (result ++ [col])
      | Some n =>
          make_unique_loop rest (<[col := S n]> seen)
                           (result ++ [suffixed col (S n)])
      end
  end.

Definition make_unique (cols : list string) : list string :=
  make_unique_loop cols ∅ [].

(** [[str(col).strip().title() for col in df.columns]]; the labels are
    taken as the strings [str(col)] yields. *)
Definition normalize_name (col : string) : string :=
  PyStr.title (PyStr.strip col).

(** Lines 53 and 67 together: the column labels of the loaded sheet after
    both assignments to [df.columns]. *)
Definition normalize_columns (raw : list string) : list string :=
  make_unique (normalize_name <$> raw).

(** How many entries of [l] equal [col]. *)
Fixpoint occurrences (col : string) (l : list string) : nat :=
  match l with
  | [] => 0
  | x :: rest => (if decide (x = col) then 1 else 0) + occurrences col rest
  end.

(** The normaliser in the specification's words: the first occurrence of a
    name stays bare, the k-th repetition gets an underscore and k. *)
Definition unique_name_spec (before : list string) (col : string) : string :=
  match occurrences col before with
  | 0 => col
  | S k => suffixed col (S k)
  end.

Fixpoint make_unique_spec (before cols : list string) : list string :=
  match cols with
  | [] => []
  | col :: rest =>
      unique_name_spec before col :: make_unique_spec (before ++ [col]) rest
  end.

(** The dict [seen] after the loop went through [before]: a name is a key
    once it occurred, and its value is the number of its repetitions. *)
Definition seen_after (before : list string) (seen : gmap string nat) : Prop :=
  ∀ c, seen !! c = match occurrences c before with 0 => None | S k => Some k end.

(** ** Tables *)

(** A cell of the loaded sheet: text, a number, or missing (pandas' NaN). *)
Inductive cell : Type :=
| CStr (s : string)
| CNum (n : Z)
| CEmpty.

#[global] Instance cell_eq_dec : EqDecision cell.
Proof. solve_decision. Defined.

Abbreviation row := (list cell).

(** The DataFrame [df]: its column labels and its rows, in order.  The row
    index is not kept, so [reset_index(drop=True)] changes nothing here. *)
Record Table : Type := mkTable {
  columns : list string;
  rows : list row
}.

#[global] Instance Table_eq_dec : EqDecision Table.
Proof. solve_decision. Defined.

(** Every row of a DataFrame has one cell per column. *)
Definition rectangular (df : Table) : Prop :=
  Forall (λ r : row, length r = length (columns df)) (rows df).

Definition notnull (x : cell) : bool :=
  match x with CEmpty => false | _ => true end.

Definition isnull (x : cell) : bool := negb (notnull x).

(** The cell of row [r] in the column at position [j].  A column picked in
    a [st.selectbox] over [df.columns] is identified by its position. *)
Definition cell_at (j : nat) (r : row) : cell := nth j r CEmpty.

(** Selection by a boolean mask, [df[mask]] on rows and [df.loc[:, mask]]
    on columns. *)
Fixpoint select {A : Type} (mask : list bool) (l : list A) : list A :=
  match mask, l with
  | b :: mask', x :: l' => if b then x :: select mask' l' else select mask' l'
  | _, _ => []
  end.

(** ** Cleaning step (lines 70-73) *)

(** [lambda x: x.strip() if isinstance(x, str) else x] *)
Definition strip_cell (x : cell) : cell :=
  match x with
  | CStr s => CStr (PyStr.strip s)
  | _ => x
  end.

(** [df.applymap(f)] *)
Definition applymap (f : cell → cell) (df : Table) : Table :=
  mkTable (columns df) ((λ r : row, f <$> r) <$> rows df).

(** [df.empty]: one of the two axes has length 0. *)
Definition empty (df : Table) : bool :=
  match columns df, rows df with
  | [], _ | _, [] => true
  | _, _ => false
  end.

(** The marks of [df.duplicated()] (keep='first'): a row is marked when an
    earlier row has the same cells; two missing cells count as the same. *)
Fixpoint duplicated_from (earlier : list row) (rs : list row) : list bool :=
  match rs with
  | [] => []
  | r :: rest => bool_decide (r ∈ earlier) :: duplicated_from (r :: earlier) rest
  end.

(** [df.duplicated()]; pandas answers with an empty Series for an empty
    frame. *)
Definition duplicated (df : Table) : list bool :=
  if empty df then [] else duplicated_from [] (rows df).

(** [df.drop_duplicates()]: an empty frame is returned as it is, otherwise
    the rows not marked by [duplicated] are kept. *)
Definition drop_duplicates (df : Table) : Table :=
  if empty df then df
  else mkTable (columns df) (select (negb <$> duplicated df) (rows df)).

(** [df.dropna(how='all')]: the rows holding at least one value stay. *)
Definition dropna_rows (df : Table) : Table :=
  mkTable (columns df) (filter (λ r : row, existsb notnull r = true) (rows df)).

(** Which columns hold at least one value. *)
Definition column_mask (df : Table) : list bool :=
  (λ j, existsb (λ r, notnull (cell_at j r)) (rows df))
    <$> seq 0 (length (columns df)).

(** [df.dropna(axis=1, how='all')] *)
Definition dropna_columns (df : Table) : Table :=
  let mask := column_mask df in
  mkTable (select mask (columns df)) (select mask <$> rows df).

(** Lines 70-72: [df] before the empty columns are dropped. *)
Definition rows_cleaned (df : Table) : Table :=
  dropna_rows (drop_duplicates (applymap strip_cell df)).

(** Lines 70-73, in the order of the script. *)
Definition clean (df : Table) : Table := dropna_columns (rows_cleaned df).

(** A mask covers a row when every cell it cuts out is missing. *)
Definition covers (mask : list bool) (r : row) : Prop :=
  Forall2 (λ (b : bool) (x : cell), b = false → x = CEmpty) mask r.

(** ** Aggregation (lines 85-89) *)

(** Keys in order of first appearance. *)
Fixpoint distinct {K : Type} `{EqDecision K} (l : list K) : list K :=
  match l with
  | [] => []
  | k :: rest => k :: filter (λ k', k' ≠ k) (distinct rest)
  end.

(** Python's [<=] on two texts: character by character by code point, a
    prefix before its extensions. *)
Fixpoint str_leb (s t : string) : bool :=
  match s, t with
  | EmptyString, _ => true
  | String _ _, EmptyString => false
  | String a s', String b t' =>
      if nat_of_ascii a <? nat_of_ascii b then true
      else if nat_of_ascii b <? nat_of_ascii a then false
      else str_leb s' t'
  end.

(** The order in which pandas lists the keys of a [groupby] (sort=True):
    numbers by value, then texts in Python's order; a missing value, which
    is never a key, comes last. *)
Definition cell_leb (x y : cell) : bool :=
  match x, y with
  | CNum m, CNum n => (m <=? n)%Z
  | CNum _, _ => true
  | CStr _, CNum _ => false
  | CStr s, CStr t => str_leb s t
  | CStr _, CEmpty => true
  | CEmpty, CEmpty => true
  | CEmpty, _ => false
  end.

(** The keys of a [groupby] on two columns are listed by their first
    value and, among equal first values, by their second. *)
Definition pair_leb (x y : cell * cell) : bool :=
  if decide (x.1 = y.1) then cell_leb x.2 y.2 else cell_leb x.1 y.1.

(** The key of a row for [groupby(col)]: rows whose key is missing belong
    to no group (pandas' default dropna=True). *)
Definition key1 (a : nat) (r : row) : option cell :=
  if notnull (cell_at a r) then Some (cell_at a r) else None.

(** The key of a row for [groupby([col_a, col_b])]. *)
Definition key2 (a b : nat) (r : row) : option (cell * cell) :=
  if notnull (cell_at a r) && notnull (cell_at b r)
  then Some (cell_at a r, cell_at b r) else None.

Section GroupBy.
Context {K : Type} `{EqDecision K}.
Variable key : row → option K.
Variable leb : K → K → bool.

(** The order on keys that [leb] decides. *)
Definition key_le (x y : K) : Prop := leb x y = true.

#[global] Instance key_le_dec : RelDecision key_le.
Proof. intros x y. unfold key_le. apply _. Defined.

(** The groups of a [groupby]: the keys found in the rows, each once,
    sorted. *)
Definition group_keys (rs : list row) : list K :=
  merge_sort key_le (distinct (omap key rs)).

Definition group_rows (k : K) (rs : list row) : list row :=
  filter (λ r, key r = Some k) rs.

(** [groupby(...)[col].count()]: per group, the rows whose cell in the
    column at [target] is not missing. *)
Definition groupby_count (target : nat) (rs : list row) : list (K * nat) :=
  (λ k, (k, length (filter (λ r, notnull (cell_at target r) = true)
                           (group_rows k rs))))
    <$> group_keys rs.
End GroupBy.

(** The key columns that [groupby(keys, as_index=False)[target].agg()]
    puts in front of the aggregated column.  pandas inserts the keys last
    to first; a key that is the aggregated column itself is left out, and
    inserting a column that is already there raises ValueError
    ([None]). *)
Fixpoint inserted_keys (target : nat) (keys : list nat) : option (list nat) :=
  match keys with
  | [] => Some []
  | k :: rest =>
      match inserted_keys target rest with
      | Some inserted =>
          if decide (k = target) then Some inserted
          else if decide (k ∈ inserted) then None
          else Some (k :: inserted)
      | None => None
      end
  end.

(** [resumo], line 85: [None] when the call raises; otherwise one line
    per (unit, portfolio) group, holding the key cells of the inserted key
    columns and the count that [rename] labels Total Pessoas. *)
Definition resumo (df : Table) (col_unidade col_carteira col_pessoa : nat)
  : option (list (list cell * nat)) :=
  match inserted_keys col_pessoa [col_unidade; col_carteira] with
  | Some inserted =>
      Some ((λ line : (cell * cell) * nat,
               ((λ j, if decide (j = col_unidade) then line.1.1 else line.1.2)
                  <$> inserted,
                line.2))
            <$> groupby_count (key2 col_unidade col_carteira) pair_leb
                              col_pessoa (rows df))
  | None => None
  end.

(** [resumo_unidade], line 89. *)
Definition resumo_unidade (df : Table) (col_unidade col_pessoa : nat)
  : option (list (list cell * nat)) :=
  match inserted_keys col_pessoa [col_unidade] with
  | Some inserted =>
      Some ((λ line : cell * nat, ((λ _, line.1) <$> inserted, line.2))
            <$> groupby_count (key1 col_unidade) cell_leb
                              col_pessoa (rows df))
  | None => None
  end.

(** The count of non-missing values in a column of the whole table,
    [df[col].count()]. *)
Definition column_count (df : Table) (col : nat) : nat :=
  length (filter (λ r, notnull (cell_at col r) = true) (rows df)).

Definition total (counts : list nat) : nat := foldr Nat.add 0 counts.

(** ** Inconsistency checks (lines 95-104) *)

(** [df.isnull().values.any()] *)
Definition isnull_any (df : Table) : bool :=
  existsb (existsb isnull) (rows df).

(** [df.duplicated().any()] *)
Definition duplicated_any (df : Table) : bool :=
  existsb id (duplicated df).

Definition msg_ausentes : string := "Existem valores ausentes na base.".
Definition msg_duplicadas : string := "Existem linhas duplicadas na base.".

Definition inconsistencias (df : Table) : list string :=
  (if isnull_any df then [msg_ausentes] else [])
  ++ (if duplicated_any df then [msg_duplicadas] else []).

(** ** Numeric coercion and sums used by the dashboards *)

Definition digit_of (c : ascii) : option Z :=
  let n := nat_of_ascii c in
  if (48 <=? n) && (n <=? 57) then Some (Z.of_nat (n - 48)) else None.

Fixpoint parse_digits (acc : Z) (s : string) : option Z :=
  match s with
  | EmptyString => Some acc
  | String c rest => d ← digit_of c; parse_digits (10 * acc + d) rest
  end.

Definition parse_unsigned (s : string) : option Z :=
  match s with
  | EmptyString => None
  | _ => parse_digits 0 s
  end.

(** A reading of texts as numbers: decimal digits with an optional sign,
    on which it agrees with pandas.  It is the reading used on the sample
    sheets; what line 139 writes is stated for every reading. *)
Definition parse_number (s : string) : option Z :=
  match s with
  | String "-"%char rest => Z.opp <$> parse_unsigned rest
  | String "+"%char rest => parse_unsigned rest
  | _ => parse_unsigned s
  end.

(** [pd.to_numeric(..., errors='coerce')] on one cell: a number stays, text
    is read as a number or becomes missing. *)
Definition to_numeric (x : cell) : cell :=
  match x with
  | CNum n => CNum n
  | CStr s => match parse_number s with Some n => CNum n | None => CEmpty end
  | CEmpty => CEmpty
  end.

(** Python's [+] on two values of a column: numbers add, text
    concatenates, a number and a text raise TypeError ([None]). *)
Definition py_add (a b : cell) : option cell :=
  match a, b with
  | CNum x, CNum y => Some (CNum (x + y))
  | CStr s, CStr t => Some (CStr (s +:+ t))
  | _, _ => None
  end.

(** The sum of one group in [groupby(...)[col].sum()]: missing cells are
    skipped, the first value starts the sum, the others are added with
    [+]; a group without values sums to 0. *)
Definition group_sum (values : list cell) : option cell :=
  match filter (λ x, notnull x = true) values with
  | [] => Some (CNum 0)
  | v :: rest => foldl (λ acc x, a ← acc; py_add a x) (Some v) rest
  end.

(** [df.groupby(col, as_index=False)[target].sum()] *)
Definition groupby_sum (by_col target : nat) (rs : list row)
  : option (list (cell * cell)) :=
  mapM (λ k, s ← group_sum (cell_at target <$> group_rows (key1 by_col) k rs);
             Some (k, s))
       (group_keys (key1 by_col) cell_leb rs).

(** [df[col] = pd.to_numeric(df[col], errors='coerce')] *)
Definition coerce_column (col : nat) (df : Table) : Table :=
  mkTable (columns df) (alter to_numeric col <$> rows df).

(** [pd.to_numeric(..., errors='coerce')] on one cell, for any way
    [read] of reading a text as a number: a number stays, a missing cell
    stays missing, a text becomes the number read or a missing cell. *)
Definition to_numeric_with (read : string → option Z) (x : cell) : cell :=
  match x with
  | CNum n => CNum n
  | CStr s => match read s with Some n => CNum n | None => CEmpty end
  | CEmpty => CEmpty
  end.

(** Line 139, [df[col] = pd.to_numeric(df[col], errors='coerce')], with
    [read] for pandas' reading of texts. *)
Definition coerce_column_with (read : string → option Z) (col : nat)
    (df : Table) : Table :=
  mkTable (columns df) (alter (to_numeric_with read) col <$> rows df).

(** Lines 122-124: [resumo_pizza] after the sum, the coercion of the sums
    and [dropna(subset=[col_valor])]. *)
Definition resumo_pizza (df : Table) (col_carteira col_valor : nat)
  : option (list (cell * cell)) :=
  match groupby_sum col_carteira col_valor (rows df) with
  | Some sums =>
      Some (filter (λ kv : cell * cell, notnull kv.2 = true)
                   ((λ kv : cell * cell, (kv.1, to_numeric kv.2)) <$> sums))
  | None => None
  end.

(** ** The page after the cleaning step, as a program over [df] *)

(** A step reads and may reassign the variable [df]; its result is [None]
    when the script stops on an exception. *)
Definition App (A : Type) : Type := Table → Table * option A.

Definition ret {A : Type} (a : A) : App A := λ df, (df, Some a).

Definition raise {A : Type} : App A := λ df, (df, None).

Definition bind {A B : Type} (m : App A) (f : A → App B) : App B :=
  λ df, match m df with
        | (df', Some a) => f a df'
        | (df', None) => (df', None)
        end.

Definition get_df : App Table := λ df, (df, Some df).

Definition set_df (new : Table) : App unit := λ _, (new, Some tt).

Definition lift {A : Type} (o : option A) : App A :=
  match o with Some a => ret a | None => raise end.

#[global] Instance App_ret : MRet App := @ret.
#[global] Instance App_bind : MBind App := λ A B f m, bind m f.

(** What a dashboard puts on the page. *)
Inductive figure : Type :=
| BarFigure (bars : list (cell * cell * cell))
| PieFigure (slices : list (cell * cell)).

Inductive shown : Type :=
| Chart (fig : figure)
| WarningNoNumericData.

Inductive tipo : Type := Barras | Pizza.

(** The columns and the chart type picked in the select boxes. *)
Record choice : Type := mkChoice {
  col_unidade : nat;
  col_carteira : nat;
  col_pessoa : nat;
  tipo_grafico : tipo;
  col_valor : nat;
  col_valor_unidade : nat
}.

(** Lines 85-91: the script stops at line 85 or 89 when the call
    raises. *)
Definition apuracao (ch : choice)
  : App (list (list cell * nat) * list (list cell * nat)) :=
  (df ← get_df;
   por_carteira ←
     lift (resumo df (col_unidade ch) (col_carteira ch) (col_pessoa ch));
   por_unidade ← lift (resumo_unidade df (col_unidade ch) (col_pessoa ch));
   ret (por_carteira, por_unidade)).

(** Lines 95-104. *)
Definition verificacao : App (list string) :=
  (df ← get_df; ret (inconsistencias df)).

(** Lines 111-134; [px.bar] draws one bar per row from the three chosen
    columns (x, y, colour).  When the portfolio column is the value column
    the summary of the pie path has the sums only, and the chart takes
    names and values from them. *)
Definition dashboard_carteiras (ch : choice) : App shown :=
  (df ← get_df;
   match tipo_grafico ch with
   | Barras =>
       ret (Chart (BarFigure
              ((λ r, (cell_at (col_carteira ch) r, cell_at (col_valor ch) r,
                      cell_at (col_unidade ch) r)) <$> rows df)))
   | Pizza =>
       pizza ← lift (resumo_pizza df (col_carteira ch) (col_valor ch));
       match pizza with
       | [] => ret WarningNoNumericData
       | _ =>
           ret (Chart (PieFigure
                  (if decide (col_carteira ch = col_valor ch)
                   then (λ kv : cell * cell, (kv.2, kv.2)) <$> pizza
                   else pizza)))
       end
   end).

(** Lines 138-150, with [read] for pandas' reading of texts at line 139.
    When the unit column is the value column the summary has the sums
    only, and the chart takes all three of x, y and colour from them. *)
Definition dashboard_unidade (read : string → option Z) (ch : choice)
  : App shown :=
  (df ← get_df;
   set_df (coerce_column_with read (col_valor_unidade ch) df);;
   df' ← get_df;
   resumo_valor_unidade ←
     lift (groupby_sum (col_unidade ch) (col_valor_unidade ch) (rows df'));
   ret (Chart (BarFigure
          ((λ kv : cell * cell,
              if decide (col_unidade ch = col_valor_unidade ch)
              then (kv.2, kv.2, kv.2) else (kv.1, kv.2, kv.1))
           <$> resumo_valor_unidade)))).

(** Aggregation, inconsistency checks and the first dashboard. *)
Definition ate_dashboard_carteiras (ch : choice) : App shown :=
  (apuracao ch;; verificacao;; dashboard_carteiras ch).

(** Everything that runs on the cleaned table (lines 79-150). *)
Definition pagina (read : string → option Z) (ch : choice) : App shown :=
  (ate_dashboard_carteiras ch;; dashboard_unidade read ch).

(** ** Header-row input (lines 44-47) *)

(** [st.number_input(min_value, max_value, value)]: the widget is built
    only when the default lies within the bounds, and it hands back only
    numbers within them.  [number_input_allows ... v] tells whether [v] can
    be the number handed back. *)
Definition number_input_allows (min_value max_value value v : Z) : bool :=
  (min_value <=? value)%Z && (value <=? max_value)%Z
  && (min_value <=? v)%Z && (v <=? max_value)%Z.

(** Which [linha_cabecalho] the user can set for a sheet that
    [pd.read_excel] loaded with [len_base_dados] rows. *)
Definition linha_cabecalho_allows (len_base_dados : nat) (v : Z) : bool :=
  number_input_allows 0 (Z.min 50 (Z.of_nat len_base_dados - 1)) 0 v.

(** ** Assigning the column labels (lines 53 and 67) *)

(** [df.columns = names]: pandas raises ValueError unless [names] has one
    label per column ([None]); the cells are not touched. *)
Definition set_columns (names : list string) (df : Table) : option Table :=
  if decide (length names = length (columns df))
  then Some (mkTable names (rows df)) else None.

(** Line 53 followed by line 67. *)
Definition normalizar_colunas (df : Table) : option Table :=
  match set_columns (normalize_name <$> columns df) df with
  | Some df1 => set_columns (make_unique (columns df1)) df1
  | None => None
  end.

(** ** Predicates used to state the properties *)

(** Every character is white space. *)
Fixpoint all_space (s : string) : bool :=
  match s with
  | EmptyString => true
  | String c rest => PyStr.is_space c && all_space rest
  end.

(** The last character is white space. *)
Fixpoint last_is_space (s : string) : bool :=
  match s with
  | EmptyString => false
  | String c EmptyString => PyStr.is_space c
  | String _ rest => last_is_space rest
  end.

(** Nothing to trim on the right. *)
Definition trimmed_right (s : string) : Prop := last_is_space s = false.

(** A step that leaves [df] as it found it, whether it runs through or
    stops on an exception. *)
Definition reads {A : Type} (m : App A) : Prop := ∀ df, (m df).1 = df.

(** Every character is an ASCII character. *)
Fixpoint is_ascii (s : string) : bool :=
  match s with
  | EmptyString => true
  | String c rest => (nat_of_ascii c <? 128) && is_ascii rest
  end.

(** The string holds an underscore. *)
Fixpoint has_underscore (s : string) : bool :=
  match s with
  | EmptyString => false
  | String c rest => bool_decide (c = "_"%char) || has_underscore rest
  end.

(** No name the loop of [make_unique] makes up for a repetition (the name
    followed by an underscore and the number of the repetition) is itself a
    name of the list. *)
Definition no_collision (all : list string) : Prop :=
  ∀ c n, 1 ≤ n < occurrences c all → suffixed c n ∉ all.

(** A cell a numeric column can hold: a number or nothing. *)
Definition is_numeric (x : cell) : bool :=
  match x with CStr _ => false | _ => true end.

(** ** Sample sheets *)

(** A sheet with padded text, a repeated row, a row without values and a
    column without values. *)
Definition planilha_suja : Table :=
  mkTable ["Unidade"; "Obs"; "Total"]%string
    [[CStr " norte "; CEmpty; CNum 1];
     [CEmpty; CEmpty; CEmpty];
     [CStr "norte"; CEmpty; CNum 1];
     [CStr "sul"; CEmpty; CEmpty]].

(** A cleaned sheet in which one row has no unit. *)
Definition planilha_sem_unidade : Table :=
  mkTable ["Unit"; "Portfolio"; "Person"]%string
    [[CStr "A"; CStr "X"; CStr "p1"];
     [CEmpty; CStr "X"; CStr "p2"]].

(** The sheet of the specification's aggregation example. *)
Definition planilha_exemplo : Table :=
  mkTable ["Unit"; "Portfolio"; "Person"]%string
    [[CStr "A"; CStr "X"; CStr "p1"];
     [CStr "A"; CStr "X"; CStr "p2"];
     [CStr "B"; CStr "Y"; CStr "p3"]].

(** A cleaned sheet whose value column holds text: two numerals and one
    word. *)
Definition planilha_valores : Table :=
  mkTable ["Carteira"; "Valor"]%string
    [[CStr "X"; CStr "1"];
     [CStr "X"; CStr "x"];
     [CStr "Y"; CStr "2"]].

(** A cleaned sheet whose value column holds words only. *)
Definition planilha_palavras : Table :=
  mkTable ["Carteira"; "Valor"]%string
    [[CStr "X"; CStr "alto"];
     [CStr "Y"; CStr "baixo"]].

(** Pie chart of the value column by the first column, and the same two
    columns for the dashboard by unit. *)
Definition escolha_pizza : choice := mkChoice 0 0 1 Pizza 1 1.

(** A cleaned sheet with a unit, a portfolio and a value column that
    holds text: two numerals and one word. *)
Definition planilha_vendas : Table :=
  mkTable ["Unidade"; "Carteira"; "Valor"]%string
    [[CStr "Norte"; CStr "X"; CStr "1"];
     [CStr "Norte"; CStr "X"; CStr "x"];
     [CStr "Sul"; CStr "Y"; CStr "2"]].

(** Unit, portfolio and person boxes on the three columns of
    [planilha_vendas], the pie chart, and the third column as value of
    both dashboards. *)
Definition escolha_vendas : choice := mkChoice 0 1 2 Pizza 2 2.

(** * Properties *)

(** ** Column-name normaliser *)

Section MakeUnique.
Implicit Types (cols before result : list string) (seen : gmap string nat).

Lemma append_empty_r (s : string) : s +:+ "" = s.
Proof. induction s as [|a s IH]; [done|]. rewrite <- IH at 2. reflexivity. Qed.

Lemma occurrences_snoc c before col :
  occurrences c (before ++ [col])
  = occurrences c before + (if decide (col = c) then 1 else 0).
Proof.
  induction before as [|x before IH]; simpl; [lia|]. rewrite IH. lia.
Qed.

Lemma seen_after_nil : seen_after [] ∅.
Proof. intros c. apply lookup_empty. Qed.

Lemma seen_after_first before seen col :
  seen_after before seen → seen !! col = None →
  seen_after (before ++ [col]) (<[col := 0]> seen).
Proof.
  intros Hinv Hcol c. rewrite occurrences_snoc.
  destruct (decide (col = c)) as [->|Hne].
  - rewrite lookup_insert_eq. rewrite Hinv in Hcol.
    destruct (occurrences c before); [done | discriminate].
  - rewrite lookup_insert_ne by done. rewrite Hinv, Nat.add_0_r. done.
Qed.

Lemma seen_after_repeat before seen col n :
  seen_after before seen → seen !! col = Some n →
  seen_after (before ++ [col]) (<[col := S n]> seen).
Proof.
  intros Hinv Hcol c. rewrite occurrences_snoc.
  destruct (decide (col = c)) as [->|Hne].
  - rewrite lookup_insert_eq. rewrite Hinv in Hcol.
    destruct (occurrences c before) as [|k]; [discriminate|].
    injection Hcol as ->. by rewrite Nat.add_1_r.
  - rewrite lookup_insert_ne by done. rewrite Hinv, Nat.add_0_r. done.
Qed.

(** The loop computes what the specification describes. *)
Lemma make_unique_loop_spec cols : ∀ before seen result,
  seen_after before seen →
  make_unique_loop cols seen result = result ++ make_unique_spec before cols.
Proof.
  induction cols as [|col rest IH]; intros before seen result Hinv; simpl.
  - by rewrite app_nil_r.
  - unfold unique_name_spec. pose proof (Hinv col) as Hcol.
    destruct (seen !! col) as [n|] eqn:Hlook.
    + destruct (occurrences col before) as [|k]; [discriminate|].
      injection Hcol as ->.
      rewrite (IH (before ++ [col])) by by apply seen_after_repeat.
      by rewrite <- app_assoc.
    + destruct (occurrences col before) as [|k]; [|discriminate].
      rewrite (IH (before ++ [col])) by by apply seen_after_first.
      by rewrite <- app_assoc.
Qed.

Lemma make_unique_is_spec cols : make_unique cols = make_unique_spec [] cols.
Proof. apply (make_unique_loop_spec cols [] ∅ []), seen_after_nil. Qed.

Lemma make_unique_spec_lookup cols : ∀ before i col,
  cols !! i = Some col →
  make_unique_spec before cols !! i
  = Some (unique_name_spec (before ++ take i cols) col).
Proof.
  induction cols as [|c rest IH]; intros before i col Hi; [done|].
  destruct i as [|i]; simpl in *.
  - injection Hi as ->. by rewrite app_nil_r.
  - rewrite (IH _ _ _ Hi). by rewrite <- app_assoc.
Qed.

Lemma make_unique_spec_length cols : ∀ before,
  length (make_unique_spec before cols) = length cols.
Proof. induction cols as [|c rest IH]; intros before; simpl; [done|]. by rewrite IH. Qed.

(** The output has one name per input name. *)
Lemma make_unique_length cols : length (make_unique cols) = length cols.
Proof. rewrite make_unique_is_spec. apply make_unique_spec_length. Qed.

(** Each output name is the input name at the same position, bare or
    followed by a suffix. *)
Lemma make_unique_same_order cols i col :
  cols !! i = Some col →
  ∃ suffix, make_unique cols !! i = Some (col +:+ suffix).
Proof.
  intros Hi. rewrite make_unique_is_spec, (make_unique_spec_lookup _ _ _ _ Hi).
  unfold unique_name_spec, suffixed.
  destruct (occurrences col ([] ++ take i cols)) as [|k].
  - exists ""%string. by rewrite append_empty_r.
  - by eexists.
Qed.

Lemma occurrences_not_elem c l : c ∉ l → occurrences c l = 0.
Proof.
  induction l as [|x l IH]; intros Hc; simpl; [done|].
  apply not_elem_of_cons in Hc as [Hne Hc].
  rewrite decide_False by done. by rewrite IH.
Qed.

Lemma make_unique_spec_distinct cols : ∀ before,
  NoDup (before ++ cols) → make_unique_spec before cols = cols.
Proof.
  induction cols as [|c rest IH]; intros before Hnd; simpl; [done|].
  assert (c ∉ before) as Hc.
  { apply NoDup_app in Hnd as (_ & Hdisj & _). intros Hin.
    apply (Hdisj c Hin). by left. }
  unfold unique_name_spec. rewrite (occurrences_not_elem _ _ Hc).
  f_equal. apply IH. by rewrite <- app_assoc.
Qed.

(** Names that are already pairwise distinct go through unchanged. *)
Lemma make_unique_distinct cols : NoDup cols → make_unique cols = cols.
Proof. intros Hnd. rewrite make_unique_is_spec. by apply make_unique_spec_distinct. Qed.

Lemma suffixed_ne col n : suffixed col n ≠ col.
Proof.
  unfold suffixed. induction col as [|a col IH]; [done|].
  intros Heq. apply IH. by injection Heq.
Qed.

Lemma occurrences_0_not_elem c l : occurrences c l = 0 → c ∉ l.
Proof.
  induction l as [|x l IH]; simpl; intros Hocc; [apply not_elem_of_nil|].
  destruct (decide (x = c)) as [->|Hne]; [done|].
  apply not_elem_of_cons. split; [done | by apply IH].
Qed.

Lemma make_unique_spec_fixpoint cols : ∀ before,
  make_unique_spec before cols = cols →
  NoDup cols ∧ ∀ c, c ∈ cols → c ∉ before.
Proof.
  induction cols as [|c rest IH]; intros before Heq.
  - split; [constructor|]. intros c Hc. by apply elem_of_nil in Hc.
  - simpl in Heq. injection Heq as Hhead Htail.
    apply IH in Htail as [Hnd Hnew].
    assert (c ∉ before) as Hc.
    { apply occurrences_0_not_elem. unfold unique_name_spec in Hhead.
      destruct (occurrences c before); [done|]. by apply suffixed_ne in Hhead. }
    split.
    + constructor; [|done]. intros Hin. apply (Hnew c Hin).
      apply elem_of_app. right. by left.
    + intros c' Hc' Hb. apply elem_of_cons in Hc' as [->|Hc']; [done|].
      apply (Hnew c' Hc'), elem_of_app. by left.
Qed.

(** [make_unique] leaves a list as it is exactly when its names are
    pairwise distinct; so a second pass changes nothing exactly when
    the first pass produced pairwise distinct names. *)
Lemma make_unique_fixpoint_iff cols : make_unique cols = cols ↔ NoDup cols.
Proof.
  split; [|apply make_unique_distinct].
  rewrite make_unique_is_spec. intros Heq.
  by apply make_unique_spec_fixpoint in Heq as [Hnd _].
Qed.

End MakeUnique.

Example normalize_name_samples :
  normalize_name "  hello woRLD "%string = "Hello World"%string
  ∧ normalize_name "they're bill's"%string = "They'Re Bill'S"%string
  ∧ normalize_name "a1b c_d"%string = "A1B C_D"%string.
Proof. by vm_compute. Qed.

(** C7.  Each name is trimmed and title-cased, and the normalised name at
    position [i] comes out bare when it did not occur before position [i],
    and with an underscore and the number of its earlier occurrences (1 for
    the first repetition, 2 for the second, ...) when it did; raw columns
    Name, name, Name become Name, Name_1, Name_2. *)
Theorem normalize_columns_suffixes (raw : list string) (i : nat) (col : string) :
  (normalize_name <$> raw) !! i = Some col →
  normalize_columns raw !! i
  = Some (match occurrences col (take i (normalize_name <$> raw)) with
          | 0 => col
          | S k => col +:+ "_" +:+ pretty (S k)
          end)
  ∧ normalize_columns ["Name"; "name"; "Name"]%string
    = ["Name"; "Name_1"; "Name_2"]%string.
Proof.
  intros Hi. split; [|by vm_compute].
  unfold normalize_columns. rewrite make_unique_is_spec.
  by rewrite (make_unique_spec_lookup _ _ _ _ Hi).
Qed.

Lemma normalize_columns_suffixes_witness :
  normalize_columns [" total "; "Total"; "TOTAL"]%string !! 2 = Some "Total_2"%string
  ∧ normalize_columns ["Name"; "name"; "Name"]%string
    = ["Name"; "Name_1"; "Name_2"]%string.
Proof.
  exact (normalize_columns_suffixes [" total "; "Total"; "TOTAL"]%string 2
           "Total"%string eq_refl).
Defined.

(** C1.  On the raw headers a, A, A_1 the normaliser returns three names,
    in order, of which the last two are the same: the suffixed name A_1
    made for the second column is not checked against the third column's
    own name. *)
Theorem make_unique_repeats_a_name :
  normalize_columns ["a"; "A"; "A_1"]%string = ["A"; "A_1"; "A_1"]%string
  ∧ bool_decide (NoDup (normalize_columns ["a"; "A"; "A_1"]%string)) = false.
Proof. by vm_compute. Qed.

(** C6.  On A, A, A_1 a second pass of [make_unique] over the output of the
    first changes it: the repeated A_1 is suffixed again. *)
Theorem make_unique_second_pass_differs :
  make_unique ["A"; "A"; "A_1"]%string = ["A"; "A_1"; "A_1"]%string
  ∧ make_unique (make_unique ["A"; "A"; "A_1"]%string)
    = ["A"; "A_1"; "A_1_1"]%string.
Proof. by vm_compute. Qed.

(** ** Python string methods *)

Module PyStrFacts.
Import PyStr.

Lemma lstrip_trimmed_left s : trimmed_left (lstrip s).
Proof.
  induction s as [|c s IH]; simpl; [done|].
  destruct (is_space c) eqn:Hc; [done|]. simpl. done.
Qed.

Lemma lstrip_id s : trimmed_left s → lstrip s = s.
Proof. destruct s as [|c s]; simpl; [done|]. by intros ->. Qed.

Lemma rstrip_trimmed_left s : trimmed_left s → trimmed_left (rstrip s).
Proof.
  destruct s as [|c s]; simpl; [done|]. intros Hc.
  destruct (rstrip s); [rewrite Hc|]; done.
Qed.

Lemma rstrip_idem s : rstrip (rstrip s) = rstrip s.
Proof.
  induction s as [|c s IH]; [done|]. simpl.
  destruct (rstrip s) as [|c' kept] eqn:Hs.
  - destruct (is_space c) eqn:Hc; [done|]. simpl. by rewrite Hc.
  - change (rstrip (String c (String c' kept)))
      with (match rstrip (String c' kept) with
            | EmptyString => if is_space c then EmptyString else String c EmptyString
            | String a k => String c (String a k)
            end).
    by rewrite IH.
Qed.

Lemma strip_idem s : strip (strip s) = strip s.
Proof.
  unfold strip.
  rewrite (lstrip_id (rstrip (lstrip s))).
  - apply rstrip_idem.
  - apply rstrip_trimmed_left, lstrip_trimmed_left.
Qed.

End PyStrFacts.

(** ** Boolean masks *)

Section Select.
Context {A : Type}.
Implicit Types (mask : list bool) (l : list A).

Lemma select_sublist mask : ∀ l, select mask l `sublist_of` l.
Proof.
  induction mask as [|b mask IH]; intros [|x l]; simpl;
    try apply sublist_nil_l.
  destruct b; [apply sublist_skip | apply sublist_cons]; apply IH.
Qed.

Lemma select_all_true mask : ∀ l,
  Forall (λ b, b = true) mask → length l = length mask → select mask l = l.
Proof.
  induction mask as [|b mask IH]; intros [|x l] Hall Hlen; simpl in *;
    try done.
  apply Forall_cons in Hall as [-> Hall]. f_equal. apply IH; [done | lia].
Qed.

Lemma select_length {B : Type} mask : ∀ l (k : list B),
  length l = length mask → length k = length mask →
  length (select mask l) = length (select mask k).
Proof.
  induction mask as [|b mask IH]; intros [|x l] [|y k] Hl Hk; simpl in *;
    try done.
  destruct b; simpl; [f_equal|]; apply IH; lia.
Qed.

Lemma select_fmap {B : Type} (f : A → B) mask : ∀ l,
  select mask (f <$> l) = f <$> select mask l.
Proof.
  induction mask as [|b mask IH]; intros [|x l]; simpl; try done.
  destruct b; simpl; by rewrite IH.
Qed.

End Select.

(** The position in the full list of the [i]-th entry a mask lets through. *)
Lemma select_lookup mask : ∀ i,
  i < length (select mask mask) →
  ∃ j, mask !! j = Some true
       ∧ ∀ (B : Type) (l : list B), length l = length mask →
           select mask l !! i = l !! j.
Proof.
  induction mask as [|b mask IH]; intros i Hi; simpl in *; [lia|].
  destruct b; simpl in *.
  - destruct i as [|i].
    + exists 0. split; [done|]. by intros B [|x l] Hl.
    + destruct (IH i) as (j & Hj & Hsel); [lia|].
      exists (S j). split; [done|]. intros B [|x l] Hl; [done|].
      simpl. apply Hsel. simpl in Hl. lia.
  - destruct (IH i Hi) as (j & Hj & Hsel).
    exists (S j). split; [done|]. intros B [|x l] Hl; [done|].
    simpl. apply Hsel. simpl in Hl. lia.
Qed.

Section Covers.
Implicit Types (mask : list bool) (r : row).

Lemma covers_length mask r : covers mask r → length r = length mask.
Proof. intros H. symmetry. by eapply Forall2_length. Qed.

(** Two rows that a mask covers and cuts to the same cells are the same. *)
Lemma covers_select_inj mask r1 : ∀ r2,
  covers mask r1 → covers mask r2 → select mask r1 = select mask r2 → r1 = r2.
Proof.
  intros r2 H1. revert r2.
  induction H1 as [|b x mask r1 Hbx H1 IH]; intros r2 H2 Heq.
  - by inversion H2.
  - inversion H2 as [|b' y mask' r2' Hby H2']; subst. simpl in Heq.
    destruct b.
    + injection Heq as -> Heq. f_equal. by apply IH.
    + rewrite (Hbx eq_refl), (Hby eq_refl). f_equal. by apply IH.
Qed.

Lemma covers_existsb_notnull mask r :
  covers mask r → existsb notnull (select mask r) = existsb notnull r.
Proof.
  induction 1 as [|b x mask r Hbx H IH]; simpl; [done|].
  destruct b; simpl; [by rewrite IH|].
  by rewrite (Hbx eq_refl), IH.
Qed.

End Covers.

(** ** Duplicate marks *)

Section Duplicated.
Implicit Types (earlier rs : list row) (r : row).

Lemma duplicated_from_length rs : ∀ earlier,
  length (duplicated_from earlier rs) = length rs.
Proof. induction rs as [|r rs IH]; intros earlier; simpl; [done|]. by rewrite IH. Qed.

(** A row that is not marked is a row of the table met for the first
    time. *)
Lemma unmarked_elem rs : ∀ earlier r,
  r ∈ select (negb <$> duplicated_from earlier rs) rs → r ∈ rs ∧ r ∉ earlier.
Proof.
  induction rs as [|r0 rs IH]; intros earlier r Hr; simpl in Hr.
  - by apply elem_of_nil in Hr.
  - destruct (decide (r0 ∈ earlier)) as [Hin|Hnin].
    + rewrite bool_decide_eq_true_2 in Hr by done. simpl in Hr.
      apply IH in Hr as [Hrs Hne]. split; [by right|].
      intros He. apply Hne. by right.
    + rewrite bool_decide_eq_false_2 in Hr by done. simpl in Hr.
      apply elem_of_cons in Hr as [->|Hr]; [split; [by left | done]|].
      apply IH in Hr as [Hrs Hne]. split; [by right|].
      intros He. apply Hne. by right.
Qed.

Lemma unmarked_NoDup rs : ∀ earlier,
  NoDup (select (negb <$> duplicated_from earlier rs) rs).
Proof.
  induction rs as [|r0 rs IH]; intros earlier; simpl; [constructor|].
  destruct (bool_decide (r0 ∈ earlier)); simpl; [apply IH|].
  constructor; [|apply IH].
  intros Hin. apply unmarked_elem in Hin as [_ Hne]. apply Hne. by left.
Qed.

(** Every row is either a repetition of an earlier one or kept. *)
Lemma unmarked_complete rs : ∀ earlier r,
  r ∈ rs → r ∈ earlier ∨ r ∈ select (negb <$> duplicated_from earlier rs) rs.
Proof.
  induction rs as [|r0 rs IH]; intros earlier r Hr; simpl.
  - by apply elem_of_nil in Hr.
  - destruct (decide (r0 ∈ earlier)) as [Hin|Hnin].
    + rewrite bool_decide_eq_true_2 by done. simpl.
      apply elem_of_cons in Hr as [->|Hr]; [by left|].
      destruct (IH (r0 :: earlier) r Hr) as [He|Hk]; [|by right].
      apply elem_of_cons in He as [->|He]; by left.
    + rewrite bool_decide_eq_false_2 by done. simpl.
      apply elem_of_cons in Hr as [->|Hr]; [right; by left|].
      destruct (IH (r0 :: earlier) r Hr) as [He|Hk]; [|right; by right].
      apply elem_of_cons in He as [->|He]; [right; by left | by left].
Qed.

(** Rows that are pairwise distinct and new get no mark. *)
Lemma duplicated_from_distinct rs : ∀ earlier,
  NoDup rs → (∀ r, r ∈ rs → r ∉ earlier) →
  duplicated_from earlier rs = replicate (length rs) false.
Proof.
  induction rs as [|r0 rs IH]; intros earlier Hnd Hnew; simpl; [done|].
  apply NoDup_cons in Hnd as [Hr0 Hnd].
  rewrite bool_decide_eq_false_2 by (apply Hnew; by left).
  f_equal. apply IH; [done|]. intros r Hr He.
  apply elem_of_cons in He as [->|He]; [done|].
  apply (Hnew r); [by right | done].
Qed.

Lemma select_keep_all rs : select (negb <$> replicate (length rs) false) rs = rs.
Proof. induction rs as [|r rs IH]; csimpl; [done|]. by rewrite IH. Qed.

Lemma existsb_replicate_false n : existsb id (replicate n false) = false.
Proof. induction n; simpl; done. Qed.

End Duplicated.

(** ** Cleaning step *)

Lemma notnull_strip_cell x : notnull (strip_cell x) = notnull x.
Proof. by destruct x. Qed.

Lemma strip_cell_idem x : strip_cell (strip_cell x) = strip_cell x.
Proof. destruct x; simpl; [|done..]. by rewrite PyStrFacts.strip_idem. Qed.

Lemma existsb_notnull_strip (r : row) :
  existsb notnull (strip_cell <$> r) = existsb notnull r.
Proof.
  induction r as [|x r IH]; csimpl; [done|].
  by rewrite notnull_strip_cell, IH.
Qed.

Lemma filter_all {A : Type} (P : A → Prop) `{∀ x, Decision (P x)} (l : list A) :
  Forall P l → filter P l = l.
Proof.
  induction 1 as [|x l Hx Hl IH]; [done|].
  rewrite filter_cons_True by done. by rewrite IH.
Qed.

Lemma filter_none {A : Type} (P : A → Prop) `{∀ x, Decision (P x)} (l : list A) :
  Forall (λ x, ¬ P x) l → filter P l = [].
Proof.
  induction 1 as [|x l Hx Hl IH]; [done|].
  by rewrite filter_cons_False.
Qed.

Section RowsCleaned.
Variable df : Table.

Lemma drop_duplicates_columns (t : Table) : columns (drop_duplicates t) = columns t.
Proof. unfold drop_duplicates. by destruct (empty t). Qed.

Lemma drop_duplicates_sublist (t : Table) :
  rows (drop_duplicates t) `sublist_of` rows t.
Proof.
  unfold drop_duplicates. destruct (empty t); [done|]. apply select_sublist.
Qed.

Lemma rows_cleaned_columns : columns (rows_cleaned df) = columns df.
Proof. unfold rows_cleaned. simpl. by rewrite drop_duplicates_columns. Qed.

(** The rows left after line 72 are trimmed rows of the input, in the
    order of the input. *)
Lemma rows_cleaned_sublist :
  rows (rows_cleaned df) `sublist_of` ((λ r : row, strip_cell <$> r) <$> rows df).
Proof.
  unfold rows_cleaned. simpl. etrans; [apply sublist_filter|].
  apply (drop_duplicates_sublist (applymap strip_cell df)).
Qed.

Lemma rows_cleaned_have_values (r : row) :
  r ∈ rows (rows_cleaned df) → existsb notnull r = true.
Proof.
  unfold rows_cleaned. simpl. intros Hr.
  by apply list_elem_of_filter in Hr as [Hr _].
Qed.

(** A row of the input that holds a value is, trimmed, still there after
    line 72. *)
Lemma rows_cleaned_complete (r : row) :
  r ∈ rows df → existsb notnull r = true →
  strip_cell <$> r ∈ rows (rows_cleaned df).
Proof.
  intros Hr Hv. unfold rows_cleaned. simpl.
  apply list_elem_of_filter. split; [by rewrite existsb_notnull_strip|].
  assert (strip_cell <$> r ∈ rows (applymap strip_cell df)) as Hin.
  { simpl. by apply (list_elem_of_fmap_2 (λ r : row, strip_cell <$> r)). }
  unfold drop_duplicates, duplicated.
  destruct (empty (applymap strip_cell df)); [done|]. cbn [rows].
  destruct (unmarked_complete _ [] _ Hin) as [He|Hk]; [|done].
  by apply elem_of_nil in He.
Qed.

Lemma rows_cleaned_stripped :
  Forall (Forall (λ x, strip_cell x = x)) (rows (rows_cleaned df)).
Proof.
  apply Forall_forall. intros r Hr.
  pose proof (elem_of_sublist _ _ _ Hr rows_cleaned_sublist) as Hin.
  apply list_elem_of_fmap in Hin as (r0 & -> & _).
  apply Forall_fmap, Forall_forall. intros x _. apply strip_cell_idem.
Qed.

Hypothesis Hrect : rectangular df.

Lemma rows_cleaned_rectangular : rectangular (rows_cleaned df).
Proof.
  unfold rectangular. rewrite rows_cleaned_columns.
  apply Forall_forall. intros r Hr.
  pose proof (elem_of_sublist _ _ _ Hr rows_cleaned_sublist) as Hin.
  apply list_elem_of_fmap in Hin as (r0 & -> & Hr0).
  rewrite length_fmap. unfold rectangular in Hrect.
  by apply (proj1 (Forall_forall _ _) Hrect).
Qed.

(** After line 72 no two rows are the same. *)
Lemma rows_cleaned_NoDup : NoDup (rows (rows_cleaned df)).
Proof.
  unfold rows_cleaned. simpl.
  unfold drop_duplicates, duplicated.
  destruct (empty (applymap strip_cell df)) eqn:Hempty.
  - unfold empty in Hempty. simpl in Hempty.
    destruct (columns df) as [|c cs] eqn:Hcols.
    + rewrite filter_none; [constructor|].
      apply Forall_fmap, Forall_forall. intros r Hr. simpl.
      apply (proj1 (Forall_forall _ _) Hrect) in Hr. rewrite Hcols in Hr.
      destruct r; [done | discriminate].
    + cbn [applymap rows]. destruct (rows df); [constructor | discriminate].
  - cbn [rows]. apply NoDup_filter, unmarked_NoDup.
Qed.

End RowsCleaned.

Section ColumnMask.
Variable t : Table.

Lemma column_mask_length : length (column_mask t) = length (columns t).
Proof. unfold column_mask. by rewrite length_fmap, length_seq. Qed.

Lemma column_mask_lookup (j : nat) (b : bool) :
  column_mask t !! j = Some b ↔
  j < length (columns t) ∧ b = existsb (λ r, notnull (cell_at j r)) (rows t).
Proof.
  unfold column_mask. rewrite list_lookup_fmap_Some. split.
  - intros (i & -> & Hi). apply lookup_seq in Hi as [-> Hlt]. done.
  - intros [Hlt ->]. exists j. split; [done|]. by apply lookup_seq.
Qed.

Hypothesis Hrect : rectangular t.

Lemma rectangular_length (r : row) : r ∈ rows t → length r = length (columns t).
Proof. intros Hr. by apply (proj1 (Forall_forall _ _) Hrect). Qed.

(** A column in which some row holds a value is let through. *)
Lemma column_mask_keeps (j : nat) (r : row) :
  r ∈ rows t → notnull (cell_at j r) = true → column_mask t !! j = Some true.
Proof.
  intros Hr Hv. apply column_mask_lookup. split.
  - rewrite <- (rectangular_length r Hr).
    destruct (decide (j < length r)) as [|Hge]; [done|].
    unfold cell_at in Hv. rewrite nth_overflow in Hv by lia. done.
  - symmetry. apply existsb_exists. exists r. split; [|done].
    by apply list_elem_of_In.
Qed.

(** The cells the mask cuts out of a row are all missing. *)
Lemma column_mask_covers (r : row) : r ∈ rows t → covers (column_mask t) r.
Proof.
  intros Hr. apply Forall2_same_length_lookup_2.
  - by rewrite column_mask_length, rectangular_length.
  - intros j b x Hb Hx ->. apply column_mask_lookup in Hb as [_ Hb].
    symmetry in Hb. destruct x; [exfalso..|done].
    all: rewrite <- not_true_iff_false in Hb; apply Hb.
    all: apply existsb_exists; exists r; split; [by apply list_elem_of_In|].
    all: unfold cell_at; by rewrite (nth_lookup_Some _ _ _ _ Hx).
Qed.

End ColumnMask.

Section Clean.
Variable df : Table.
Hypothesis Hrect : rectangular df.

Lemma clean_rows_NoDup : NoDup (rows (clean df)).
Proof.
  unfold clean, dropna_columns. cbn [rows].
  apply NoDup_fmap_2_strong; [|by apply rows_cleaned_NoDup].
  intros r1 r2 H1 H2. apply covers_select_inj;
    by apply column_mask_covers; [apply rows_cleaned_rectangular|].
Qed.

Lemma clean_rows_have_values :
  Forall (λ r : row, existsb notnull r = true) (rows (clean df)).
Proof.
  unfold clean, dropna_columns. cbn [rows].
  apply Forall_fmap, Forall_forall. intros r Hr. simpl.
  rewrite covers_existsb_notnull.
  - by apply (rows_cleaned_have_values df).
  - by apply column_mask_covers; [apply rows_cleaned_rectangular|].
Qed.

Lemma clean_rows_stripped :
  Forall (Forall (λ x, strip_cell x = x)) (rows (clean df)).
Proof.
  unfold clean, dropna_columns. cbn [rows].
  apply Forall_fmap, Forall_forall. intros r Hr. simpl.
  pose proof (proj1 (Forall_forall _ _) (rows_cleaned_stripped df) r Hr) as Hs.
  apply Forall_forall. intros x Hx.
  apply (proj1 (Forall_forall _ _) Hs).
  by apply (elem_of_sublist _ _ _ Hx), select_sublist.
Qed.

Lemma clean_rectangular : rectangular (clean df).
Proof.
  unfold rectangular, clean, dropna_columns. cbn [rows columns].
  apply Forall_fmap, Forall_forall. intros r Hr. simpl.
  apply select_length.
  - rewrite column_mask_length. apply rectangular_length; [|done].
    by apply rows_cleaned_rectangular.
  - by rewrite column_mask_length.
Qed.

(** No column of the cleaned table is without a value. *)
Lemma clean_column_mask :
  Forall (λ b, b = true) (column_mask (clean df)).
Proof.
  apply Forall_forall. intros b Hb.
  apply list_elem_of_lookup in Hb as [i Hb].
  apply column_mask_lookup in Hb as [Hi ->].
  set (m := column_mask (rows_cleaned df)) in *.
  assert (length (columns (rows_cleaned df)) = length m) as Hlen
    by (by unfold m; rewrite column_mask_length).
  assert (i < length (select m m)) as Hi'.
  { unfold clean, dropna_columns in Hi. cbn [columns] in Hi. fold m in Hi.
    by rewrite (select_length m _ m) in Hi. }
  destruct (select_lookup m i Hi') as (j & Hj & Hsel).
  apply column_mask_lookup in Hj as [Hjlt Hj]. symmetry in Hj.
  apply existsb_exists in Hj as (r & Hr & Hv).
  apply list_elem_of_In in Hr.
  apply existsb_exists. exists (select m r). split.
  - apply list_elem_of_In. unfold clean, dropna_columns. cbn [rows].
    by apply (list_elem_of_fmap_2 (select m)).
  - unfold cell_at in *. rewrite nth_lookup, Hsel.
    + by rewrite <- nth_lookup.
    + rewrite <- Hlen. apply rectangular_length; [|done].
      by apply rows_cleaned_rectangular.
Qed.

End Clean.

(** A table on which the cleaning step finds nothing to do comes back as
    it is. *)
Lemma clean_fixpoint (t : Table) :
  rectangular t →
  NoDup (rows t) →
  Forall (λ r : row, existsb notnull r = true) (rows t) →
  Forall (Forall (λ x, strip_cell x = x)) (rows t) →
  Forall (λ b, b = true) (column_mask t) →
  clean t = t.
Proof.
  intros Hrect Hnd Hval Hstrip Hmask.
  assert (applymap strip_cell t = t) as Hs.
  { destruct t as [cols rs]. unfold applymap. simpl in *. f_equal.
    rewrite <- (list_fmap_id rs) at 2. apply Forall_fmap_ext_1.
    eapply Forall_impl; [exact Hstrip|]. intros r Hr. simpl.
    rewrite <- (list_fmap_id r) at 2. by apply Forall_fmap_ext_1. }
  assert (drop_duplicates t = t) as Hd.
  { unfold drop_duplicates, duplicated. destruct (empty t); [done|].
    rewrite duplicated_from_distinct; [|done|].
    - rewrite select_keep_all. by destruct t.
    - intros r _ Hr. by apply elem_of_nil in Hr. }
  assert (dropna_rows t = t) as Hr.
  { unfold dropna_rows. rewrite filter_all by done. by destruct t. }
  assert (dropna_columns t = t) as Hc.
  { unfold dropna_columns. pose proof (column_mask_length t) as Hlen.
    rewrite select_all_true by done.
    replace (select (column_mask t) <$> rows t) with (rows t); [by destruct t|].
    rewrite <- (list_fmap_id (rows t)) at 1. apply Forall_fmap_ext_1.
    eapply Forall_impl; [exact Hrect|]. intros r Hlr. simpl.
    simpl in Hlr. symmetry. apply select_all_true; [done | congruence]. }
  unfold clean, rows_cleaned. by rewrite Hs, Hd, Hr, Hc.
Qed.

(** C8.  Cleaning a table that was just cleaned gives the same table:
    trimming, dropping repeated rows, dropping rows without a value and
    dropping columns without a value find nothing more to do. *)
Theorem clean_idempotent (df : Table) :
  rectangular df → clean (clean df) = clean df.
Proof.
  intros Hrect. apply clean_fixpoint.
  - by apply clean_rectangular.
  - by apply clean_rows_NoDup.
  - by apply clean_rows_have_values.
  - apply clean_rows_stripped.
  - by apply clean_column_mask.
Qed.

(** C5.  The cleaned table is the input cut by a column mask and a choice
    of trimmed rows, both in the order of the input: every column in which
    some row holds a value is let through, every row that holds a value is
    still there (trimmed, and once if it was repeated), and the cells the
    mask cuts out of the remaining rows are all missing. *)
Theorem clean_keeps_values (df : Table) :
  rectangular df →
  ∃ (mask : list bool) (kept : list row),
    length mask = length (columns df)
    ∧ columns (clean df) = select mask (columns df)
    ∧ rows (clean df) = select mask <$> kept
    ∧ columns (clean df) `sublist_of` columns df
    ∧ kept `sublist_of` ((λ r : row, strip_cell <$> r) <$> rows df)
    ∧ (∀ r : row, r ∈ rows df → existsb notnull r = true →
         strip_cell <$> r ∈ kept)
    ∧ (∀ (j : nat) (r : row), r ∈ rows df → notnull (cell_at j r) = true →
         mask !! j = Some true)
    ∧ (∀ r : row, r ∈ kept → covers mask r).
Proof.
  intros Hrect.
  pose proof (rows_cleaned_rectangular df Hrect) as Hrect'.
  exists (column_mask (rows_cleaned df)), (rows (rows_cleaned df)).
  repeat split.
  - by rewrite column_mask_length, rows_cleaned_columns.
  - unfold clean, dropna_columns. cbn [columns]. by rewrite rows_cleaned_columns.
  - unfold clean, dropna_columns. cbn [columns].
    rewrite rows_cleaned_columns. apply select_sublist.
  - apply rows_cleaned_sublist.
  - apply rows_cleaned_complete.
  - intros j r Hr Hv.
    apply (column_mask_keeps _ Hrect' j (strip_cell <$> r)).
    + apply rows_cleaned_complete; [done|].
      apply existsb_exists. exists (cell_at j r). split; [|done].
      unfold cell_at in *. destruct (nth_lookup_or_length r j CEmpty) as [Hl|Hge].
      * apply list_elem_of_In. by eapply list_elem_of_lookup_2.
      * rewrite nth_overflow in Hv by lia. done.
    + unfold cell_at in *. rewrite nth_lookup, list_lookup_fmap.
      rewrite nth_lookup in Hv. destruct (r !! j) as [x|]; simpl in *; [|done].
      by rewrite notnull_strip_cell.
  - intros r Hr. by apply column_mask_covers.
Qed.

(** C10.  On a cleaned table [df.duplicated()] marks no row, so the
    message about repeated rows is not among the inconsistencies. *)
Theorem no_duplicate_warning_after_clean (df : Table) :
  rectangular df →
  duplicated_any (clean df) = false
  ∧ msg_duplicadas ∉ inconsistencias (clean df).
Proof.
  intros Hrect.
  assert (duplicated_any (clean df) = false) as Hdup.
  { unfold duplicated_any, duplicated. destruct (empty (clean df)); [done|].
    rewrite duplicated_from_distinct.
    - apply existsb_replicate_false.
    - by apply clean_rows_NoDup.
    - intros r _ Hr. by apply elem_of_nil in Hr. }
  split; [done|]. unfold inconsistencias. rewrite Hdup, app_nil_r.
  destruct (isnull_any (clean df)); [|apply not_elem_of_nil].
  intros Hin. apply list_elem_of_singleton in Hin. by vm_compute in Hin.
Qed.

Lemma clean_idempotent_witness :
  clean (clean planilha_suja) = clean planilha_suja.
Proof. apply clean_idempotent. unfold rectangular. by repeat constructor. Defined.

Lemma clean_keeps_values_witness :
  ∃ (mask : list bool) (kept : list row),
    length mask = length (columns planilha_suja)
    ∧ columns (clean planilha_suja) = select mask (columns planilha_suja)
    ∧ rows (clean planilha_suja) = select mask <$> kept
    ∧ columns (clean planilha_suja) `sublist_of` columns planilha_suja
    ∧ kept `sublist_of` ((λ r : row, strip_cell <$> r) <$> rows planilha_suja)
    ∧ (∀ r : row, r ∈ rows planilha_suja → existsb notnull r = true →
         strip_cell <$> r ∈ kept)
    ∧ (∀ (j : nat) (r : row), r ∈ rows planilha_suja →
         notnull (cell_at j r) = true → mask !! j = Some true)
    ∧ (∀ r : row, r ∈ kept → covers mask r).
Proof. apply clean_keeps_values. unfold rectangular. by repeat constructor. Defined.

Lemma no_duplicate_warning_after_clean_witness :
  duplicated_any (clean planilha_suja) = false
  ∧ msg_duplicadas ∉ inconsistencias (clean planilha_suja).
Proof.
  apply no_duplicate_warning_after_clean. unfold rectangular.
  by repeat constructor.
Defined.

(** The sample sheet cleaned: the padding, the repetition, the empty row
    and the empty column are gone. *)
Example clean_planilha_suja :
  clean planilha_suja
  = mkTable ["Unidade"; "Total"]%string
      [[CStr "norte"; CNum 1]; [CStr "sul"; CEmpty]].
Proof. by vm_compute. Qed.

(** Without the cleaning step the repeated row is reported. *)
Example duplicated_before_clean :
  duplicated_any (applymap strip_cell planilha_suja) = true.
Proof. by vm_compute. Qed.

(** ** Aggregation *)

Section Distinct.
Context {K : Type} `{EqDecision K}.
Implicit Types (l : list K) (k : K).

Lemma elem_of_distinct l k : k ∈ distinct l ↔ k ∈ l.
Proof.
  induction l as [|x l IH]; simpl; [done|].
  rewrite !elem_of_cons, list_elem_of_filter, IH.
  destruct (decide (k = x)) as [->|Hne]; tauto.
Qed.

Lemma NoDup_distinct l : NoDup (distinct l).
Proof.
  induction l as [|x l IH]; simpl; [constructor|].
  constructor; [|by apply NoDup_filter].
  rewrite list_elem_of_filter. by intros [Hne _].
Qed.

End Distinct.

Lemma filter_ext_elem {A : Type} (P Q : A → Prop)
    `{∀ x, Decision (P x)} `{∀ x, Decision (Q x)} (l : list A) :
  (∀ x, x ∈ l → P x ↔ Q x) → filter P l = filter Q l.
Proof.
  induction l as [|x l IH]; intros Hext; [done|].
  rewrite !filter_cons.
  rewrite IH by (intros y Hy; apply Hext; by right).
  destruct (decide (P x)) as [HP|HP], (decide (Q x)) as [HQ|HQ]; try done.
  - exfalso. apply HQ, (Hext x); [by left | done].
  - exfalso. apply HP, (Hext x); [by left | done].
Qed.

Section GroupByCount.
Context {K : Type} `{EqDecision K}.
Variable key : row → option K.
Variable counted : row → Prop.
Context `{∀ r, Decision (counted r)}.
Implicit Types (rs : list row) (ks : list K).

(** The rows counted in one of the groups [k :: ks] are those counted in
    group [k] and those counted in one of the groups [ks]. *)
Lemma count_split_group rs k ks :
  k ∉ ks →
  length (filter (λ r, key r ∈ Some <$> k :: ks ∧ counted r) rs)
  = length (filter (λ r, key r = Some k ∧ counted r) rs)
    + length (filter (λ r, key r ∈ Some <$> ks ∧ counted r) rs).
Proof.
  intros Hk. induction rs as [|r rs IH]; [done|].
  rewrite !filter_cons.
  destruct (decide (key r = Some k ∧ counted r)) as [[Hkey Hc]|Hn1].
  - rewrite decide_True by (split; [rewrite Hkey; by left | done]).
    rewrite decide_False.
    + cbn [length]. rewrite IH. lia.
    + intros [Hin _]. rewrite Hkey in Hin.
      apply list_elem_of_fmap in Hin as (k' & [= ->] & Hk'). done.
  - destruct (decide (key r ∈ Some <$> ks ∧ counted r)) as [[Hin Hc]|Hn2].
    + rewrite decide_True by (split; [by right | done]).
      cbn [length]. rewrite IH. lia.
    + rewrite decide_False; [done|].
      intros [Hin Hc]. csimpl in Hin.
      apply elem_of_cons in Hin as [Hkey|Hin]; [by apply Hn1 | by apply Hn2].
Qed.

Lemma total_group_counts rs ks :
  NoDup ks →
  total ((λ k, length (filter (λ r, key r = Some k ∧ counted r) rs)) <$> ks)
  = length (filter (λ r, key r ∈ Some <$> ks ∧ counted r) rs).
Proof.
  induction 1 as [|k ks Hk Hnd IH].
  - csimpl. rewrite filter_none; [done|].
    apply Forall_forall. intros r _ [Hin _]. by apply elem_of_nil in Hin.
  - rewrite count_split_group by done. rewrite <- IH. done.
Qed.

End GroupByCount.

(** The order of the keys. *)

Lemma str_leb_total (s : string) : ∀ t, str_leb s t = true ∨ str_leb t s = true.
Proof.
  induction s as [|a s IH]; intros [|b t]; simpl; try (by left); try (by right).
  destruct (nat_of_ascii a <? nat_of_ascii b) eqn:Hab; [by left|].
  destruct (nat_of_ascii b <? nat_of_ascii a) eqn:Hba; [by right|].
  apply IH.
Qed.

Lemma cell_leb_total (x y : cell) : cell_leb x y = true ∨ cell_leb y x = true.
Proof.
  destruct x as [s|m|], y as [t|n|]; simpl; try (by left); try (by right).
  - apply str_leb_total.
  - rewrite !Z.leb_le. lia.
Qed.

Lemma pair_leb_total (x y : cell * cell) :
  pair_leb x y = true ∨ pair_leb y x = true.
Proof.
  unfold pair_leb. destruct (decide (x.1 = y.1)) as [Heq|Hne].
  - rewrite decide_True by done. apply cell_leb_total.
  - rewrite decide_False by (intros Heq; by apply Hne). apply cell_leb_total.
Qed.

Section GroupKeys.
Context {K : Type} `{EqDecision K}.
Variable key : row → option K.
Variable leb : K → K → bool.
Hypothesis leb_total : ∀ x y, leb x y = true ∨ leb y x = true.

Lemma elem_of_group_keys (rs : list row) (k : K) :
  k ∈ group_keys key leb rs ↔ ∃ r : row, r ∈ rs ∧ key r = Some k.
Proof.
  unfold group_keys.
  by rewrite merge_sort_Permutation, elem_of_distinct, list_elem_of_omap.
Qed.

Lemma NoDup_group_keys (rs : list row) : NoDup (group_keys key leb rs).
Proof. unfold group_keys. rewrite merge_sort_Permutation. apply NoDup_distinct. Qed.

(** The groups come in increasing order of their keys. *)
Lemma Sorted_group_keys (rs : list row) :
  Sorted (λ x y, leb x y = true) (group_keys key leb rs).
Proof.
  assert (Total (key_le leb)) as Htotal by (intros x y; apply leb_total).
  unfold group_keys. apply (Sorted_merge_sort (key_le leb)).
Qed.

Lemma groupby_count_keys (target : nat) (rs : list row) :
  (groupby_count key leb target rs).*1 = group_keys key leb rs.
Proof.
  unfold groupby_count. rewrite <- list_fmap_compose.
  rewrite <- (list_fmap_id (group_keys key leb rs)) at 2.
  by apply list_fmap_ext.
Qed.

Lemma elem_of_groupby_count (target : nat) (rs : list row) (k : K) (n : nat) :
  (k, n) ∈ groupby_count key leb target rs
  ↔ k ∈ group_keys key leb rs
    ∧ n = length (filter (λ r, key r = Some k
                               ∧ notnull (cell_at target r) = true) rs).
Proof.
  unfold groupby_count, group_rows. rewrite list_elem_of_fmap.
  setoid_rewrite list_filter_filter. split.
  - intros (k' & [= <- ->] & Hk). split; [done|]. f_equal.
    apply list_filter_iff. intros r. tauto.
  - intros [Hk ->]. exists k. split; [|done]. do 2 f_equal.
    apply list_filter_iff. intros r. tauto.
Qed.

(** The counts of all groups add up to the rows that have a key and a
    value in the target column. *)
Lemma groupby_count_total (target : nat) (rs : list row) :
  total ((groupby_count key leb target rs).*2)
  = length (filter (λ r, is_Some (key r) ∧ notnull (cell_at target r) = true) rs).
Proof.
  unfold groupby_count. rewrite <- list_fmap_compose.
  rewrite (Forall_fmap_ext_1 _
    (λ k, length (filter (λ r, key r = Some k ∧ notnull (cell_at target r) = true) rs))).
  - rewrite total_group_counts by apply NoDup_group_keys.
    f_equal. apply filter_ext_elem. intros r Hr. split.
    + intros [Hin Hv]. split; [|done].
      apply list_elem_of_fmap in Hin as (k & -> & _). by exists k.
    + intros [[k Hk] Hv]. split; [|done]. rewrite Hk.
      apply list_elem_of_fmap_2, elem_of_group_keys. by exists r.
  - apply Forall_forall. intros k _. simpl. unfold group_rows.
    rewrite list_filter_filter. f_equal. apply list_filter_iff.
    intros r. split; intros [? ?]; done.
Qed.

End GroupKeys.

Lemma key2_is_Some (a b : nat) (r : row) :
  is_Some (key2 a b r)
  ↔ notnull (cell_at a r) = true ∧ notnull (cell_at b r) = true.
Proof.
  unfold key2.
  destruct (notnull (cell_at a r)), (notnull (cell_at b r)); simpl;
    split; try (intros [? ?]; done); try (by intros [k [=]]); by eexists.
Qed.

(** When line 85 raises: the two grouping boxes are on one column and the
    person box is on another. *)
Lemma inserted_keys_pair (p u c : nat) :
  inserted_keys p [u; c] = None ↔ u = c ∧ c ≠ p.
Proof.
  simpl. destruct (decide (c = p)) as [->|Hc].
  - destruct (decide (u = p)) as [->|Hu].
    + split; [done | by intros [_ ?]].
    + destruct (decide (u ∈ [])) as [Hin|_]; [by apply elem_of_nil in Hin|].
      split; [done | by intros [_ ?]].
  - destruct (decide (u = p)) as [->|Hu].
    + split; [done|]. intros [-> ?]. done.
    + destruct (decide (u ∈ [c])) as [Hin|Hnin].
      * apply list_elem_of_singleton in Hin. by split.
      * split; [done|]. intros [-> _]. exfalso. apply Hnin. by left.
Qed.

Lemma resumo_counts (df : Table) (col_u col_c col_p : nat)
    (lines : list (list cell * nat)) :
  resumo df col_u col_c col_p = Some lines →
  lines.*2 = (groupby_count (key2 col_u col_c) pair_leb col_p (rows df)).*2.
Proof.
  unfold resumo. destruct (inserted_keys col_p [col_u; col_c]); [|done].
  intros [= <-]. rewrite <- list_fmap_compose. by apply list_fmap_ext.
Qed.

(** C2, as the code has it.  Line 85 raises when the two grouping boxes
    are on one column and the person box on another.  When it does not,
    the per-combination counts add up to the number of rows that have a
    value in the target column and in both grouping columns; rows without
    a unit or without a portfolio belong to no combination.  When every
    row has both, the counts add up to the count of values of the target
    column in the whole table. *)
Theorem resumo_total (df : Table) (col_u col_c col_p : nat) :
  (resumo df col_u col_c col_p = None ↔ col_u = col_c ∧ col_c ≠ col_p)
  ∧ ∀ lines, resumo df col_u col_c col_p = Some lines →
      total (lines.*2)
      = length (filter (λ r, (notnull (cell_at col_u r) = true
                              ∧ notnull (cell_at col_c r) = true)
                             ∧ notnull (cell_at col_p r) = true) (rows df))
      ∧ ((∀ r : row, r ∈ rows df →
            notnull (cell_at col_u r) = true
            ∧ notnull (cell_at col_c r) = true) →
         total (lines.*2) = column_count df col_p).
Proof.
  split.
  - unfold resumo. rewrite <- inserted_keys_pair.
    by destruct (inserted_keys col_p [col_u; col_c]).
  - intros lines Hlines. rewrite (resumo_counts _ _ _ _ _ Hlines).
    assert (total ((groupby_count (key2 col_u col_c) pair_leb col_p (rows df)).*2)
            = length (filter (λ r, (notnull (cell_at col_u r) = true
                                    ∧ notnull (cell_at col_c r) = true)
                                   ∧ notnull (cell_at col_p r) = true) (rows df)))
      as Htotal.
    { rewrite groupby_count_total. f_equal.
      apply list_filter_iff. intros r. by rewrite key2_is_Some. }
    split; [done|]. intros Hkeys. rewrite Htotal. unfold column_count.
    f_equal. apply filter_ext_elem. intros r Hr. split; [by intros [_ ?]|].
    intros Hv. split; [by apply Hkeys | done].
Qed.

Lemma resumo_total_witness :
  ∃ lines, resumo planilha_exemplo 0 1 2 = Some lines
           ∧ total (lines.*2) = column_count planilha_exemplo 2.
Proof.
  eexists. split; [reflexivity|].
  apply (resumo_total planilha_exemplo 0 1 2); [reflexivity|]. intros r Hr.
  repeat (apply elem_of_cons in Hr as [->|Hr]; [by vm_compute|]).
  by apply elem_of_nil in Hr.
Defined.

(** C2, as stated, fails on a cleaned table with a row that has a person
    but no unit: one person is counted in the combinations, two in the
    table. *)
Lemma resumo_misses_row_without_unit :
  clean planilha_sem_unidade = planilha_sem_unidade
  ∧ (λ lines : list (list cell * nat), total (lines.*2))
      <$> resumo planilha_sem_unidade 0 1 2 = Some 1
  ∧ column_count planilha_sem_unidade 2 = 2.
Proof. by vm_compute. Qed.

(** The aggregation example of the specification, and the summaries with
    the boxes as Streamlit first shows them (all on the first column: no
    key column is inserted) and with the two grouping boxes on one column
    and the person box on another (line 85 raises). *)
Example resumo_planilha_exemplo :
  resumo planilha_exemplo 0 1 2
  = Some [([CStr "A"; CStr "X"], 2); ([CStr "B"; CStr "Y"], 1)]
  ∧ resumo_unidade planilha_exemplo 0 2
    = Some [([CStr "A"], 2); ([CStr "B"], 1)]
  ∧ resumo planilha_exemplo 0 0 0 = Some [([], 2); ([], 1)]
  ∧ resumo planilha_exemplo 0 2 0
    = Some [([CStr "p1"], 1); ([CStr "p2"], 1); ([CStr "p3"], 1)]
  ∧ resumo planilha_exemplo 0 0 2 = None.
Proof. by vm_compute. Qed.

(** ** The page after the cleaning step *)

Lemma to_numeric_parse_number (x : cell) :
  to_numeric x = to_numeric_with parse_number x.
Proof. by destruct x. Qed.

Lemma coerce_column_parse_number (col : nat) (df : Table) :
  coerce_column col df = coerce_column_with parse_number col df.
Proof. reflexivity. Qed.

Lemma alter_to_numeric_cell (read : string → option Z) (col j : nat) (r : row) :
  cell_at j (alter (to_numeric_with read) col r)
  = if decide (j = col) then to_numeric_with read (cell_at j r) else cell_at j r.
Proof.
  unfold cell_at. rewrite !nth_lookup.
  destruct (decide (j = col)) as [->|Hne].
  - rewrite list_lookup_alter_eq. by destruct (r !! col).
  - by rewrite list_lookup_alter_ne.
Qed.

Lemma to_numeric_with_is_numeric (read : string → option Z) (x : cell) :
  is_numeric (to_numeric_with read x) = true.
Proof. destruct x as [s| |]; simpl; [|done..]. by destruct (read s). Qed.

Lemma to_numeric_with_numeric (read : string → option Z) (x : cell) :
  is_numeric x = true → to_numeric_with read x = x.
Proof. by destruct x. Qed.

Section Reads.
Context {A : Type}.

Lemma reads_ret (a : A) : reads (ret a).
Proof. by intros df. Qed.

Lemma reads_raise : reads (@raise A).
Proof. by intros df. Qed.

Lemma reads_lift (o : option A) : reads (lift o).
Proof. destruct o; [apply reads_ret | apply reads_raise]. Qed.

Lemma reads_bind {B : Type} (m : App B) (f : B → App A) :
  reads m → (∀ b, reads (f b)) → reads (bind m f).
Proof.
  intros Hm Hf df. unfold bind. specialize (Hm df).
  destruct (m df) as [df' [b|]]; simpl in *; subst df'; [apply Hf | done].
Qed.

End Reads.

Lemma reads_get_df : reads get_df.
Proof. by intros df. Qed.

Lemma apuracao_reads (ch : choice) : reads (apuracao ch).
Proof.
  unfold apuracao. apply reads_bind; [apply reads_get_df|]. intros df.
  apply reads_bind; [apply reads_lift|]. intros por_carteira.
  apply reads_bind; [apply reads_lift|]. intros por_unidade. apply reads_ret.
Qed.

Lemma dashboard_carteiras_reads (ch : choice) : reads (dashboard_carteiras ch).
Proof.
  unfold dashboard_carteiras. apply reads_bind; [apply reads_get_df|].
  intros df. destruct (tipo_grafico ch); [apply reads_ret|].
  apply reads_bind; [apply reads_lift|]. intros [|slice slices]; apply reads_ret.
Qed.

Lemma ate_dashboard_carteiras_reads (ch : choice) :
  reads (ate_dashboard_carteiras ch).
Proof.
  unfold ate_dashboard_carteiras.
  apply reads_bind; [apply apuracao_reads|]. intros _.
  apply reads_bind; [|intros _; apply dashboard_carteiras_reads].
  unfold verificacao. apply reads_bind; [apply reads_get_df|].
  intros df. apply reads_ret.
Qed.

Lemma dashboard_unidade_writes (read : string → option Z) (ch : choice)
    (df : Table) :
  (dashboard_unidade read ch df).1
  = coerce_column_with read (col_valor_unidade ch) df.
Proof.
  unfold dashboard_unidade.
  unfold mbind, App_bind, bind, mret, App_ret, ret, get_df, set_df. simpl.
  unfold lift. by destruct (groupby_sum _ _ _).
Qed.

Lemma apuracao_raises (ch : choice) (df : Table) :
  col_unidade ch = col_carteira ch → col_carteira ch ≠ col_pessoa ch →
  (apuracao ch df).2 = None.
Proof.
  intros Hu Hc. unfold apuracao.
  unfold mbind, App_bind, bind, get_df. simpl.
  assert (resumo df (col_unidade ch) (col_carteira ch) (col_pessoa ch) = None)
    as -> by (unfold resumo; by rewrite (proj2 (inserted_keys_pair _ _ _))).
  done.
Qed.

(** C4, as the code has it.  Aggregation, inconsistency checks and the
    first dashboard leave [df] as the cleaning step left it, whether they
    run through or stop on an exception.  The dashboard by unit assigns to
    [df]: the chosen value column is replaced by its numeric coercion, in
    which numbers and missing cells stay and a text becomes a number or a
    missing cell, and the column labels, the number and order of the rows
    and every cell of the other columns stay.  The page gets that far only
    when nothing before raised; it does not when the two grouping boxes
    are on one column and the person box on another. *)
Theorem downstream_frame (read : string → option Z) (ch : choice) (df : Table) :
  (ate_dashboard_carteiras ch df).1 = df
  ∧ (dashboard_unidade read ch df).1
    = coerce_column_with read (col_valor_unidade ch) df
  ∧ (pagina read ch df).1
    = match (ate_dashboard_carteiras ch df).2 with
      | Some _ => coerce_column_with read (col_valor_unidade ch) df
      | None => df
      end
  ∧ (col_unidade ch = col_carteira ch → col_carteira ch ≠ col_pessoa ch →
     (pagina read ch df).1 = df)
  ∧ columns (coerce_column_with read (col_valor_unidade ch) df) = columns df
  ∧ rows (coerce_column_with read (col_valor_unidade ch) df)
    = alter (to_numeric_with read) (col_valor_unidade ch) <$> rows df
  ∧ (∀ (r : row) (j : nat),
       cell_at j (alter (to_numeric_with read) (col_valor_unidade ch) r)
       = if decide (j = col_valor_unidade ch)
         then to_numeric_with read (cell_at j r) else cell_at j r)
  ∧ (∀ x, is_numeric x = true → to_numeric_with read x = x)
  ∧ (∀ x, is_numeric (to_numeric_with read x) = true).
Proof.
  assert ((pagina read ch df).1
          = match (ate_dashboard_carteiras ch df).2 with
            | Some _ => coerce_column_with read (col_valor_unidade ch) df
            | None => df
            end) as Hpage.
  { unfold pagina. unfold mbind at 1. unfold App_bind, bind.
    pose proof (ate_dashboard_carteiras_reads ch df) as Hread.
    destruct (ate_dashboard_carteiras ch df) as [df' [s|]]; simpl in *; subst df'.
    - apply dashboard_unidade_writes.
    - done. }
  split; [apply ate_dashboard_carteiras_reads|].
  split; [apply dashboard_unidade_writes|].
  split; [done|]. split; [|split; [done|split; [done|split; [|split]]]].
  - intros Hu Hc. rewrite Hpage.
    assert ((ate_dashboard_carteiras ch df).2 = None) as ->; [|done].
    unfold ate_dashboard_carteiras. unfold mbind at 1. unfold App_bind, bind.
    pose proof (apuracao_raises ch df Hu Hc) as Hraise.
    by destruct (apuracao ch df) as [df' [a|]].
  - intros r j. apply alter_to_numeric_cell.
  - apply to_numeric_with_numeric.
  - apply to_numeric_with_is_numeric.
Qed.

(** C4, as stated, fails: on a cleaned sheet whose value column holds
    text, with the unit, portfolio and person boxes on three different
    columns, every step runs through and the page ends with another table
    than the cleaned one (the word has become a missing cell, the numerals
    numbers). *)
Lemma pagina_changes_df :
  clean planilha_vendas = planilha_vendas
  ∧ (apuracao escolha_vendas planilha_vendas).2
    = Some ([([CStr "Norte"; CStr "X"], 2); ([CStr "Sul"; CStr "Y"], 1)],
            [([CStr "Norte"], 2); ([CStr "Sul"], 1)])
  ∧ (ate_dashboard_carteiras escolha_vendas planilha_vendas).2
    = Some (Chart (PieFigure [(CStr "Y", CNum 2)]))
  ∧ (pagina parse_number escolha_vendas planilha_vendas).1
    = mkTable ["Unidade"; "Carteira"; "Valor"]%string
        [[CStr "Norte"; CStr "X"; CNum 1];
         [CStr "Norte"; CStr "X"; CEmpty];
         [CStr "Sul"; CStr "Y"; CNum 2]].
Proof. by vm_compute. Qed.

(** C3.  On a sheet whose group X holds the numeral 1 and the word x, and
    whose group Y holds the numeral 2, the pie path sums before it coerces:
    X sums to the text 1x, which is then dropped whole, and only Y is
    charted.  The dashboard by unit coerces before it sums and gets 1 for
    X and 2 for Y out of the same two columns. *)
Theorem resumo_pizza_sums_before_coercing :
  resumo_pizza planilha_valores 0 1 = Some [(CStr "Y", CNum 2)]
  ∧ (dashboard_carteiras escolha_pizza planilha_valores).2
    = Some (Chart (PieFigure [(CStr "Y", CNum 2)]))
  ∧ groupby_sum 0 1 (rows (coerce_column 1 planilha_valores))
    = Some [(CStr "X", CNum 1); (CStr "Y", CNum 2)].
Proof. by vm_compute. Qed.

(** When no group sum reads as a number the pie path shows the warning
    and no chart. *)
Example pizza_warning_on_words :
  (dashboard_carteiras escolha_pizza planilha_palavras).2
  = Some WarningNoNumericData.
Proof. by vm_compute. Qed.

(** ** Header-row input *)

(** C9.  The numbers the header-row input can hand back are exactly those
    from 0 up to the smaller of 50 and the number of loaded rows minus
    one. *)
Theorem linha_cabecalho_bounded (len_base_dados : nat) (v : Z) :
  linha_cabecalho_allows len_base_dados v = true
  ↔ (0 ≤ v ∧ v ≤ Z.min 50 (Z.of_nat len_base_dados - 1))%Z.
Proof.
  unfold linha_cabecalho_allows, number_input_allows.
  rewrite !andb_true_iff, !Z.leb_le. lia.
Qed.

Lemma linha_cabecalho_bounded_witness :
  (0 ≤ 9 ∧ 9 ≤ Z.min 50 (Z.of_nat 10 - 1))%Z.
Proof. by apply (linha_cabecalho_bounded 10 9). Defined.

Example linha_cabecalho_limits :
  linha_cabecalho_allows 10 9 = true ∧ linha_cabecalho_allows 10 10 = false
  ∧ linha_cabecalho_allows 200 50 = true ∧ linha_cabecalho_allows 200 51 = false
  ∧ linha_cabecalho_allows 0 0 = false.
Proof. by vm_compute. Qed.

(** * Further properties of the page *)

(** ** Trimming and title-casing of labels and cells *)

Module PyStrMore.
Import PyStr PyStrFacts.

Lemma append_cons c (s t : string) : String c s +:+ t = String c (s +:+ t).
Proof. reflexivity. Qed.

Lemma append_nil (t : string) : "" +:+ t = t.
Proof. reflexivity. Qed.

Lemma lstrip_split s : ∃ l, s = l +:+ lstrip s ∧ all_space l = true.
Proof.
  induction s as [|c s (l & Hs & Hl)]; [by exists ""%string|]. simpl.
  destruct (is_space c) eqn:Hc.
  - exists (String c l). rewrite append_cons, <- Hs. simpl. by rewrite Hc, Hl.
  - by exists ""%string.
Qed.

Lemma rstrip_split s : ∃ r, s = rstrip s +:+ r ∧ all_space r = true.
Proof.
  induction s as [|c s (r & Hs & Hr)]; [by exists ""%string|]. simpl.
  destruct (rstrip s) as [|c' kept] eqn:Hk.
  - rewrite append_nil in Hs. subst s. destruct (is_space c) eqn:Hc.
    + exists (String c r). rewrite append_nil. simpl. by rewrite Hc, Hr.
    + exists r. by rewrite append_cons, append_nil.
  - exists r. split; [|done]. rewrite append_cons. by f_equal.
Qed.

Lemma rstrip_trimmed_right s : trimmed_right (rstrip s).
Proof.
  unfold trimmed_right. induction s as [|c s IH]; [done|]. simpl.
  destruct (rstrip s) as [|c' kept] eqn:Hk.
  - destruct (is_space c) eqn:Hc; [done|]. simpl. done.
  - done.
Qed.

Lemma case_keeps_space c :
  is_space (to_upper c) = is_space c ∧ is_space (to_lower c) = is_space c.
Proof. by destruct c as [[] [] [] [] [] [] [] []]. Qed.

Lemma case_keeps_cased c :
  is_cased (to_upper c) = is_cased c ∧ is_cased (to_lower c) = is_cased c.
Proof. by destruct c as [[] [] [] [] [] [] [] []]. Qed.

Lemma case_idem c :
  to_upper (to_upper c) = to_upper c ∧ to_lower (to_lower c) = to_lower c
  ∧ to_upper (to_lower c) = to_upper c ∧ to_lower (to_upper c) = to_lower c.
Proof. by destruct c as [[] [] [] [] [] [] [] []]. Qed.

Lemma space_not_cased c : is_space c = true → is_cased c = false.
Proof. by destruct c as [[] [] [] [] [] [] [] []]. Qed.

Lemma title_from_idem s : ∀ b, title_from b (title_from b s) = title_from b s.
Proof.
  induction s as [|c s IH]; intros b; [done|]. simpl.
  destruct (case_idem c) as (Huu & Hll & _ & _).
  destruct (case_keeps_cased c) as [Hcu Hcl].
  destruct b; f_equal; rewrite ?Huu, ?Hll, ?Hcu, ?Hcl; try done; apply IH.
Qed.

Lemma lstrip_title_from s : ∀ b,
  lstrip (title_from b s)
  = title_from (match s with
                | String c _ => if is_space c then false else b
                | EmptyString => b
                end) (lstrip s).
Proof.
  induction s as [|c s IH]; intros b; [done|]. simpl.
  destruct (case_keeps_space c) as [Hsu Hsl].
  destruct (is_space c) eqn:Hc.
  - rewrite (space_not_cased c Hc).
    replace (is_space (if b then to_lower c else to_upper c)) with true
      by (destruct b; by rewrite ?Hsu, ?Hsl).
    rewrite IH. f_equal. destruct s as [|c' s]; [done|].
    by destruct (is_space c').
  - replace (is_space (if b then to_lower c else to_upper c)) with false
      by (destruct b; by rewrite ?Hsu, ?Hsl).
    done.
Qed.

Lemma rstrip_title_from s : ∀ b,
  rstrip (title_from b s) = title_from b (rstrip s).
Proof.
  induction s as [|c s IH]; intros b; [done|]. simpl. rewrite IH.
  destruct (case_keeps_space c) as [Hsu Hsl].
  destruct (rstrip s) as [|c' kept]; simpl.
  - replace (is_space (if b then to_lower c else to_upper c)) with (is_space c)
      by (destruct b; by rewrite ?Hsu, ?Hsl).
    by destruct (is_space c).
  - done.
Qed.

Lemma strip_title s : strip (title s) = title (strip s).
Proof.
  unfold strip, title. rewrite lstrip_title_from, rstrip_title_from.
  f_equal. destruct s as [|c s]; [done|]. by destruct (is_space c).
Qed.

Lemma title_from_trimmed_left s b : trimmed_left s → trimmed_left (title_from b s).
Proof.
  destruct s as [|c s]; [done|]. simpl. intros Hc.
  destruct (case_keeps_space c) as [Hsu Hsl]. destruct b; congruence.
Qed.

Lemma title_from_trimmed_right s : ∀ b,
  trimmed_right s → trimmed_right (title_from b s).
Proof.
  unfold trimmed_right. induction s as [|c s IH]; intros b; [done|].
  destruct (case_keeps_space c) as [Hsu Hsl].
  destruct s as [|c' s]; simpl.
  - destruct b; congruence.
  - intros Hs. by apply (IH (is_cased c)).
Qed.

End PyStrMore.

(** X1.  [strip] takes away white space only, and all of it at both ends:
    the string is a run of white space, the stripped string, and a run of
    white space, and the stripped string neither starts nor ends with white
    space. *)
Theorem strip_removes_only_outer_space (s : string) :
  ∃ l r, s = l +:+ PyStr.strip s +:+ r
         ∧ all_space l = true ∧ all_space r = true
         ∧ PyStr.trimmed_left (PyStr.strip s) ∧ trimmed_right (PyStr.strip s).
Proof.
  destruct (PyStrMore.lstrip_split s) as (l & Hl & Hls).
  destruct (PyStrMore.rstrip_split (PyStr.lstrip s)) as (r & Hr & Hrs).
  exists l, r. unfold PyStr.strip. repeat split; try done.
  - by rewrite <- Hr.
  - apply PyStrFacts.rstrip_trimmed_left, PyStrFacts.lstrip_trimmed_left.
  - apply PyStrMore.rstrip_trimmed_right.
Qed.

(** X2.  On a label made of ASCII characters, where [PyStr.strip] and
    [PyStr.title] are Python's [strip] and [title], normalising twice
    gives what normalising once gives, and the normalised label neither
    starts nor ends with white space. *)
Theorem normalize_name_idempotent (col : string) :
  is_ascii col = true →
  normalize_name (normalize_name col) = normalize_name col
  ∧ PyStr.trimmed_left (normalize_name col)
  ∧ trimmed_right (normalize_name col).
Proof.
  intros _. unfold normalize_name. split; [|split].
  - rewrite PyStrMore.strip_title, PyStrFacts.strip_idem.
    apply PyStrMore.title_from_idem.
  - apply PyStrMore.title_from_trimmed_left.
    apply PyStrFacts.rstrip_trimmed_left, PyStrFacts.lstrip_trimmed_left.
  - apply PyStrMore.title_from_trimmed_right, PyStrMore.rstrip_trimmed_right.
Qed.

Lemma normalize_name_idempotent_witness :
  normalize_name (normalize_name "  valor  total "%string)
  = normalize_name "  valor  total "%string
  ∧ PyStr.trimmed_left (normalize_name "  valor  total "%string)
  ∧ trimmed_right (normalize_name "  valor  total "%string).
Proof. apply normalize_name_idempotent. reflexivity. Defined.

(** ** More on the column-name normaliser *)

Section MakeUniqueMore.
Implicit Types (cols before : list string) (c col : string).

Lemma pretty_N_char_not_underscore x : pretty_N_char x ≠ "_"%char.
Proof. unfold pretty_N_char. by repeat case_match. Qed.

Lemma pretty_N_go_no_underscore x : ∀ s,
  has_underscore s = false → has_underscore (pretty_N_go x s) = false.
Proof.
  induction (N.lt_wf_0 x) as [x _ IH]; intros s Hs.
  destruct (decide (x = 0%N)) as [->|Hx]; [by rewrite pretty_N_go_0|].
  rewrite pretty_N_go_step by lia. apply IH.
  - apply N.div_lt; lia.
  - simpl. rewrite Hs, orb_false_r.
    apply bool_decide_eq_false_2, pretty_N_char_not_underscore.
Qed.

Lemma pretty_nat_no_underscore (n : nat) : has_underscore (pretty n) = false.
Proof.
  unfold pretty, pretty_nat, pretty, pretty_N.
  destruct (decide (N.of_nat n = 0%N)); [done|].
  by apply pretty_N_go_no_underscore.
Qed.

Lemma has_underscore_append (s d : string) :
  has_underscore (s +:+ String "_" d) = true.
Proof.
  induction s as [|c s IH].
  - rewrite PyStrMore.append_nil. reflexivity.
  - rewrite PyStrMore.append_cons. simpl. by rewrite IH, orb_true_r.
Qed.

(** Where the last underscore of a string is does not depend on how the
    string was put together. *)
Lemma append_underscore_inj (s1 : string) : ∀ s2 d1 d2,
  has_underscore d1 = false → has_underscore d2 = false →
  s1 +:+ String "_" d1 = s2 +:+ String "_" d2 → s1 = s2 ∧ d1 = d2.
Proof.
  induction s1 as [|a s1 IH]; intros [|b s2] d1 d2 H1 H2 Heq.
  - by injection Heq.
  - injection Heq as <- Hd. subst d1.
    by rewrite has_underscore_append in H1.
  - injection Heq as -> Hd. subst d2.
    by rewrite has_underscore_append in H2.
  - injection Heq as -> Heq. destruct (IH _ _ _ H1 H2 Heq) as [-> ->]. done.
Qed.

Lemma suffixed_inj c1 c2 (n1 n2 : nat) :
  suffixed c1 n1 = suffixed c2 n2 → c1 = c2 ∧ n1 = n2.
Proof.
  unfold suffixed. intros Heq.
  apply append_underscore_inj in Heq as [-> Hp];
    try apply pretty_nat_no_underscore.
  split; [done|]. by apply (inj pretty).
Qed.

Lemma occurrences_app c l1 l2 :
  occurrences c (l1 ++ l2) = occurrences c l1 + occurrences c l2.
Proof. induction l1 as [|x l1 IH]; simpl; [done|]. rewrite IH. lia. Qed.

Lemma occurrences_elem c l : c ∈ l → 0 < occurrences c l.
Proof.
  intros Hc. destruct (occurrences c l) eqn:Hocc; [|lia].
  by apply occurrences_0_not_elem in Hocc.
Qed.

Lemma occurrences_take_lookup c l i :
  l !! i = Some c → occurrences c (take i l) < occurrences c l.
Proof.
  intros Hi. rewrite <- (take_drop_middle l i c Hi) at 2.
  rewrite occurrences_app. simpl. rewrite decide_True by done. lia.
Qed.

(** Where the occurrence number [n] of a name is. *)
Lemma occurrences_index c l : ∀ n,
  n < occurrences c l →
  ∃ i, l !! i = Some c ∧ occurrences c (take i l) = n.
Proof.
  induction l as [|x l IH]; intros n Hn; simpl in Hn; [lia|].
  destruct (decide (x = c)) as [->|Hne].
  - destruct n as [|n]; [by exists 0|].
    destruct (IH n) as (i & Hi & Hocc); [lia|].
    exists (S i). split; [done|]. simpl. rewrite decide_True by done. lia.
  - destruct (IH n) as (i & Hi & Hocc); [lia|].
    exists (S i). split; [done|]. simpl. by rewrite decide_False.
Qed.

Lemma make_unique_spec_elem before cols o :
  o ∈ make_unique_spec before cols →
  ∃ i c, cols !! i = Some c ∧ o = unique_name_spec (before ++ take i cols) c.
Proof.
  intros Ho. apply list_elem_of_lookup in Ho as [i Ho].
  assert (i < length cols) as Hlt.
  { rewrite <- (make_unique_spec_length cols before). by eapply lookup_lt_Some. }
  apply lookup_lt_is_Some in Hlt as [c Hc].
  rewrite (make_unique_spec_lookup _ _ _ _ Hc) in Ho.
  exists i, c. split; [done|]. by injection Ho.
Qed.

Lemma make_unique_spec_NoDup cols : ∀ before,
  no_collision (before ++ cols) → NoDup (make_unique_spec before cols).
Proof.
  induction cols as [|c rest IH]; intros before Hfree; simpl; [constructor|].
  assert (before ++ c :: rest = (before ++ [c]) ++ rest) as Hall
    by by rewrite <- app_assoc.
  constructor; [|apply IH; by rewrite <- Hall].
  intros Hin. apply make_unique_spec_elem in Hin as (i & c' & Hi & Heq).
  assert (occurrences c' ((before ++ [c]) ++ take i rest)
          < occurrences c' (before ++ c :: rest)) as Hlt'.
  { rewrite Hall, !occurrences_app.
    pose proof (occurrences_take_lookup _ _ _ Hi). lia. }
  assert (occurrences c before < occurrences c (before ++ c :: rest)) as Hltc.
  { rewrite occurrences_app. simpl. rewrite decide_True by done. lia. }
  assert (c' ∈ before ++ c :: rest) as Hc'.
  { apply elem_of_app. right. right. by eapply list_elem_of_lookup_2. }
  assert (c ∈ before ++ c :: rest) as Hc.
  { apply elem_of_app. right. by left. }
  unfold unique_name_spec in Heq.
  destruct (occurrences c before) as [|j] eqn:Hj;
    destruct (occurrences c' ((before ++ [c]) ++ take i rest)) as [|k] eqn:Hk.
  - subst c'. rewrite !occurrences_app in Hk. simpl in Hk.
    rewrite decide_True in Hk by done. lia.
  - apply (Hfree c' (S k)); [lia|]. by rewrite <- Heq.
  - apply (Hfree c (S j)); [lia|]. by rewrite Heq.
  - apply suffixed_inj in Heq as [<- [= <-]].
    rewrite !occurrences_app in Hk. simpl in Hk.
    rewrite decide_True in Hk by done. lia.
Qed.

Lemma make_unique_NoDup_no_collision cols :
  NoDup (make_unique cols) → no_collision cols.
Proof.
  rewrite make_unique_is_spec. intros Hnd c n [Hn1 Hn] Hin.
  destruct (occurrences_index c cols n Hn) as (j & Hj & Hoccj).
  destruct (occurrences_index (suffixed c n) cols 0) as (i & Hi & Hocci);
    [by apply occurrences_elem|].
  pose proof (make_unique_spec_lookup cols [] _ _ Hj) as Hoj.
  pose proof (make_unique_spec_lookup cols [] _ _ Hi) as Hoi.
  unfold unique_name_spec in Hoj, Hoi. simpl in Hoj, Hoi.
  rewrite Hoccj in Hoj. rewrite Hocci in Hoi.
  destruct n as [|n]; [lia|].
  assert (i = j) as ->
    by (eapply NoDup_lookup; [exact Hnd | exact Hoi | exact Hoj]).
  rewrite Hi in Hj. injection Hj as Hj. by apply suffixed_ne in Hj.
Qed.

End MakeUniqueMore.

(** X3.  [make_unique] returns one name per input name, and the name at
    each position is the input name at that position, bare or followed by
    a suffix. *)
Theorem make_unique_length_order (cols : list string) :
  length (make_unique cols) = length cols
  ∧ ∀ i col, cols !! i = Some col →
      ∃ suffix, make_unique cols !! i = Some (col +:+ suffix).
Proof.
  split; [apply make_unique_length|]. intros i col. apply make_unique_same_order.
Qed.

(** X4.  [make_unique] hands a list back unchanged exactly when its names
    are pairwise distinct. *)
Theorem make_unique_unchanged_iff_distinct (cols : list string) :
  make_unique cols = cols ↔ NoDup cols.
Proof. apply make_unique_fixpoint_iff. Qed.

(** X5.  The names [make_unique] returns are pairwise distinct exactly
    when no name it makes up for a repetition is itself a name of the
    input; in particular they are when no input name holds an
    underscore. *)
Theorem make_unique_distinct_iff_no_collision (cols : list string) :
  (NoDup (make_unique cols) ↔
   ∀ c n, 1 ≤ n < occurrences c cols → suffixed c n ∉ cols)
  ∧ ((∀ c, c ∈ cols → has_underscore c = false) → NoDup (make_unique cols)).
Proof.
  assert (no_collision cols → NoDup (make_unique cols)) as Hsuff.
  { intros Hfree. rewrite make_unique_is_spec.
    by apply make_unique_spec_NoDup. }
  split; [split; [apply make_unique_NoDup_no_collision | apply Hsuff]|].
  intros Hplain. apply Hsuff. intros c n _ Hin.
  apply Hplain in Hin.
  assert (has_underscore (suffixed c n) = true) as Hu
    by apply has_underscore_append.
  congruence.
Qed.

Lemma make_unique_distinct_iff_no_collision_witness :
  NoDup (make_unique ["Total"; "Unidade"; "Total"; "Total"]%string).
Proof.
  apply make_unique_distinct_iff_no_collision. intros c Hc.
  repeat (apply elem_of_cons in Hc as [->|Hc]; [by vm_compute|]).
  by apply elem_of_nil in Hc.
Defined.

(** ** Assigning the column labels *)

(** X6.  Both assignments to [df.columns] go through for every table: the
    new list always has one label per column.  The labels become the
    normalised, uniquified labels, the cells stay, and a table with one
    cell per column in every row stays one. *)
Theorem normalizar_colunas_succeeds (df : Table) :
  normalizar_colunas df
  = Some (mkTable (normalize_columns (columns df)) (rows df))
  ∧ (rectangular df →
     rectangular (mkTable (normalize_columns (columns df)) (rows df))).
Proof.
  split.
  - unfold normalizar_colunas, set_columns.
    rewrite decide_True by by rewrite length_fmap. cbn [columns rows].
    rewrite decide_True by apply make_unique_length. done.
  - unfold rectangular, normalize_columns. cbn [columns rows].
    by rewrite make_unique_length, length_fmap.
Qed.

(** ** More on the cleaning step *)

Lemma select_none {A : Type} (mask : list bool) : ∀ l : list A,
  Forall (λ b, b = false) mask → select mask l = [].
Proof.
  induction mask as [|b mask IH]; intros [|x l] Hall; simpl; try done.
  apply Forall_cons in Hall as [-> Hall]. by apply IH.
Qed.

Lemma existsb_notnull_elem (r : row) :
  existsb notnull r = true ↔ ∃ x, x ∈ r ∧ x ≠ CEmpty.
Proof.
  rewrite existsb_exists. split.
  - intros (x & Hx & Hv). exists x. split; [by apply list_elem_of_In|].
    by intros ->.
  - intros (x & Hx & Hv). exists x. split; [by apply list_elem_of_In|].
    by destruct x.
Qed.

(** X7.  In a cleaned table every row has one cell per column, every
    row holds a value and every column holds a value. *)
Theorem clean_leaves_no_empty_row_or_column (df : Table) :
  rectangular df →
  rectangular (clean df)
  ∧ (∀ r : row, r ∈ rows (clean df) → ∃ x, x ∈ r ∧ x ≠ CEmpty)
  ∧ (∀ j, j < length (columns (clean df)) →
       ∃ r : row, r ∈ rows (clean df) ∧ cell_at j r ≠ CEmpty).
Proof.
  intros Hrect. split; [by apply clean_rectangular|]. split.
  - intros r Hr. apply existsb_notnull_elem.
    by apply (proj1 (Forall_forall _ _) (clean_rows_have_values df Hrect)).
  - intros j Hj.
    assert (column_mask (clean df) !! j = Some true) as Hm.
    { apply lookup_lt_is_Some in Hj as Hj'.
      rewrite <- column_mask_length in Hj.
      apply lookup_lt_is_Some in Hj as [b Hb]. rewrite Hb. f_equal.
      apply (proj1 (Forall_forall _ _) (clean_column_mask df Hrect)).
      by eapply list_elem_of_lookup_2. }
    apply column_mask_lookup in Hm as [_ Hm]. symmetry in Hm.
    apply existsb_exists in Hm as (r & Hr & Hv).
    exists r. split; [by apply list_elem_of_In|]. intros Heq.
    by rewrite Heq in Hv.
Qed.

Lemma clean_leaves_no_empty_row_or_column_witness :
  rectangular (clean planilha_suja)
  ∧ (∀ r : row, r ∈ rows (clean planilha_suja) → ∃ x, x ∈ r ∧ x ≠ CEmpty)
  ∧ (∀ j, j < length (columns (clean planilha_suja)) →
       ∃ r : row, r ∈ rows (clean planilha_suja) ∧ cell_at j r ≠ CEmpty).
Proof.
  apply clean_leaves_no_empty_row_or_column. unfold rectangular.
  by repeat constructor.
Defined.

(** X8.  No text cell of a cleaned table starts or ends with white
    space. *)
Theorem clean_cells_trimmed (df : Table) (r : row) (s : string) :
  r ∈ rows (clean df) → CStr s ∈ r →
  PyStr.trimmed_left s ∧ trimmed_right s.
Proof.
  intros Hr Hs.
  pose proof (proj1 (Forall_forall _ _) (clean_rows_stripped df) r Hr) as Hrow.
  pose proof (proj1 (Forall_forall _ _) Hrow _ Hs) as Hcell.
  simpl in Hcell. injection Hcell as Hstrip. rewrite <- Hstrip.
  split.
  - apply PyStrFacts.rstrip_trimmed_left, PyStrFacts.lstrip_trimmed_left.
  - apply PyStrMore.rstrip_trimmed_right.
Qed.

Lemma clean_cells_trimmed_witness :
  PyStr.trimmed_left "norte" ∧ trimmed_right "norte".
Proof.
  apply (clean_cells_trimmed planilha_suja [CStr "norte"; CNum 1] "norte").
  - vm_compute. by left.
  - by left.
Defined.

Lemma notnull_ne (x : cell) : notnull x = true ↔ x ≠ CEmpty.
Proof. destruct x; simpl; split; done. Qed.

Lemma column_mask_all_true (t : Table) :
  Forall (λ b, b = true) (column_mask t)
  ↔ ∀ j, j < length (columns t) →
      ∃ r : row, r ∈ rows t ∧ cell_at j r ≠ CEmpty.
Proof.
  split.
  - intros Hall j Hj.
    assert (column_mask t !! j = Some true) as Hm.
    { rewrite <- column_mask_length in Hj.
      apply lookup_lt_is_Some in Hj as [b Hb]. rewrite Hb. f_equal.
      apply (proj1 (Forall_forall _ _) Hall). by eapply list_elem_of_lookup_2. }
    apply column_mask_lookup in Hm as [_ Hm]. symmetry in Hm.
    apply existsb_exists in Hm as (r & Hr & Hv).
    exists r. split; [by apply list_elem_of_In | by apply notnull_ne].
  - intros Hcols. apply Forall_forall. intros b Hb.
    apply list_elem_of_lookup in Hb as [j Hb].
    apply column_mask_lookup in Hb as [Hj ->].
    destruct (Hcols j Hj) as (r & Hr & Hv).
    apply existsb_exists. exists r.
    split; [by apply list_elem_of_In | by apply notnull_ne].
Qed.

(** X9.  Cleaning hands a table back unchanged exactly when there is
    nothing to clean: its rows are pairwise distinct, every row and every
    column holds a value, and no text cell has white space to trim. *)
Theorem clean_unchanged_iff (t : Table) :
  rectangular t →
  clean t = t
  ↔ NoDup (rows t)
    ∧ (∀ r : row, r ∈ rows t → ∃ x, x ∈ r ∧ x ≠ CEmpty)
    ∧ (∀ (r : row) s, r ∈ rows t → CStr s ∈ r → PyStr.strip s = s)
    ∧ (∀ j, j < length (columns t) →
         ∃ r : row, r ∈ rows t ∧ cell_at j r ≠ CEmpty).
Proof.
  intros Hrect. split.
  - intros Heq. split; [|split; [|split]].
    + rewrite <- Heq. by apply clean_rows_NoDup.
    + intros r Hr. apply existsb_notnull_elem. rewrite <- Heq in Hr.
      by apply (proj1 (Forall_forall _ _) (clean_rows_have_values t Hrect)).
    + intros r s Hr Hs. rewrite <- Heq in Hr.
      pose proof (proj1 (Forall_forall _ _) (clean_rows_stripped t) r Hr) as Hrow.
      pose proof (proj1 (Forall_forall _ _) Hrow _ Hs) as Hcell.
      simpl in Hcell. by injection Hcell.
    + apply column_mask_all_true. rewrite <- Heq. by apply clean_column_mask.
  - intros (Hnd & Hrows & Htrim & Hcols). apply clean_fixpoint; try done.
    + apply Forall_forall. intros r Hr. by apply existsb_notnull_elem, Hrows.
    + apply Forall_forall. intros r Hr. apply Forall_forall. intros x Hx.
      destruct x as [s| |]; simpl; [|done..]. f_equal. by apply (Htrim r).
    + by apply column_mask_all_true.
Qed.

Lemma clean_unchanged_iff_witness :
  clean planilha_exemplo = planilha_exemplo
  ↔ NoDup (rows planilha_exemplo)
    ∧ (∀ r : row, r ∈ rows planilha_exemplo → ∃ x, x ∈ r ∧ x ≠ CEmpty)
    ∧ (∀ (r : row) s, r ∈ rows planilha_exemplo → CStr s ∈ r →
         PyStr.strip s = s)
    ∧ (∀ j, j < length (columns planilha_exemplo) →
         ∃ r : row, r ∈ rows planilha_exemplo ∧ cell_at j r ≠ CEmpty).
Proof.
  apply clean_unchanged_iff. unfold rectangular. by repeat constructor.
Defined.

(** X10.  A sheet in which no row holds a value (in particular a sheet
    without rows) is cleaned to the table without rows and without
    columns. *)
Theorem clean_all_missing (df : Table) :
  (∀ r : row, r ∈ rows df → existsb notnull r = false) →
  clean df = mkTable [] [].
Proof.
  intros Hmissing.
  assert (rows (rows_cleaned df) = []) as Hrows.
  { unfold rows_cleaned. cbn [dropna_rows rows]. apply filter_none.
    apply Forall_forall. intros r Hr.
    pose proof (elem_of_sublist _ _ _ Hr
                  (drop_duplicates_sublist (applymap strip_cell df))) as Hin.
    cbn [applymap rows] in Hin.
    apply list_elem_of_fmap in Hin as (r0 & -> & Hr0).
    rewrite existsb_notnull_strip, (Hmissing r0 Hr0). done. }
  unfold clean, dropna_columns. rewrite Hrows. f_equal.
  apply select_none, Forall_forall. intros b Hb.
  apply list_elem_of_lookup in Hb as [j Hb].
  apply column_mask_lookup in Hb as [_ ->]. by rewrite Hrows.
Qed.

Lemma clean_all_missing_witness :
  clean (mkTable ["A"; "B"]%string [[CEmpty; CEmpty]; [CEmpty; CEmpty]])
  = mkTable [] [].
Proof.
  apply clean_all_missing. intros r Hr.
  repeat (apply elem_of_cons in Hr as [->|Hr]; [by vm_compute|]).
  by apply elem_of_nil in Hr.
Defined.

(** X11.  [drop_duplicates] keeps the rows in their order, loses no row
    (every row of the table is still there at least once), and leaves
    pairwise distinct rows unless the table has no columns, in which case
    it hands the table back as it is. *)
Theorem drop_duplicates_keeps_one_of_each (t : Table) :
  columns (drop_duplicates t) = columns t
  ∧ rows (drop_duplicates t) `sublist_of` rows t
  ∧ (∀ r : row, r ∈ rows (drop_duplicates t) ↔ r ∈ rows t)
  ∧ (columns t ≠ [] → NoDup (rows (drop_duplicates t)))
  ∧ (columns t = [] → drop_duplicates t = t).
Proof.
  split; [apply drop_duplicates_columns|].
  split; [apply drop_duplicates_sublist|]. split; [|split].
  - intros r. split.
    + intros Hr. by apply (elem_of_sublist _ _ _ Hr), drop_duplicates_sublist.
    + unfold drop_duplicates, duplicated. destruct (empty t); [done|].
      cbn [rows]. intros Hr.
      destruct (unmarked_complete _ [] _ Hr) as [He|Hk]; [|done].
      by apply elem_of_nil in He.
  - intros Hcols. unfold drop_duplicates, duplicated.
    destruct (empty t) eqn:Hempty.
    + unfold empty in Hempty. destruct (columns t); [done|].
      destruct (rows t); [constructor | discriminate].
    + cbn [rows]. apply unmarked_NoDup.
  - intros Hcols. unfold drop_duplicates, empty. by rewrite Hcols.
Qed.

(** ** Inconsistency checks *)

Lemma duplicated_from_none (rs : list row) : ∀ earlier,
  existsb id (duplicated_from earlier rs) = false
  ↔ NoDup rs ∧ ∀ r : row, r ∈ rs → r ∉ earlier.
Proof.
  induction rs as [|r0 rs IH]; intros earlier; simpl.
  - split; [|done]. intros _. split; [constructor|].
    intros r Hr. by apply elem_of_nil in Hr.
  - rewrite orb_false_iff, IH, bool_decide_eq_false. split.
    + intros (Hr0 & Hnd & Hnew). split.
      * constructor; [|done]. intros Hin. apply (Hnew r0 Hin). by left.
      * intros r Hr He. apply elem_of_cons in Hr as [->|Hr]; [done|].
        apply (Hnew r Hr). by right.
    + intros [Hnd Hnew]. apply NoDup_cons in Hnd as [Hr0 Hnd].
      split; [apply Hnew; by left|]. split; [done|].
      intros r Hr He. apply elem_of_cons in He as [->|He]; [done|].
      apply (Hnew r); [by right | done].
Qed.

Lemma duplicated_any_iff (df : Table) :
  duplicated_any df = true ↔ columns df ≠ [] ∧ ¬ NoDup (rows df).
Proof.
  unfold duplicated_any, duplicated, empty.
  destruct (columns df) as [|c cs] eqn:Hcols.
  - split; [done | by intros [? _]].
  - destruct (rows df) as [|r rs] eqn:Hrows.
    + split; [done|]. intros [_ Hnd]. exfalso. apply Hnd. constructor.
    + rewrite <- not_false_iff_true, duplicated_from_none. split.
      * intros Hn. split; [done|]. intros Hnd. apply Hn. split; [done|].
        intros r' _ He. by apply elem_of_nil in He.
      * intros [_ Hn] [Hnd _]. by apply Hn.
Qed.

Lemma isnull_any_iff (df : Table) :
  isnull_any df = true ↔ ∃ (r : row) x, r ∈ rows df ∧ x ∈ r ∧ x = CEmpty.
Proof.
  unfold isnull_any. rewrite existsb_exists. split.
  - intros (r & Hr & Hx). apply existsb_exists in Hx as (x & Hx & Hn).
    exists r, x. split; [by apply list_elem_of_In|].
    split; [by apply list_elem_of_In | by destruct x].
  - intros (r & x & Hr & Hx & ->). exists r.
    split; [by apply list_elem_of_In|]. apply existsb_exists.
    exists CEmpty. split; [by apply list_elem_of_In | done].
Qed.

Lemma msg_ne : msg_ausentes ≠ msg_duplicadas.
Proof. by vm_compute. Qed.

(** X12.  The message about missing values is among the inconsistencies
    exactly when some cell of some row is missing. *)
Theorem missing_message_iff (df : Table) :
  msg_ausentes ∈ inconsistencias df
  ↔ ∃ (r : row) x, r ∈ rows df ∧ x ∈ r ∧ x = CEmpty.
Proof.
  rewrite <- isnull_any_iff. unfold inconsistencias.
  destruct (isnull_any df), (duplicated_any df); simpl; split; try done.
  - intros _. by left.
  - intros _. by left.
  - intros Hin. apply list_elem_of_singleton in Hin. by apply msg_ne in Hin.
  - intros Hin. by apply elem_of_nil in Hin.
Qed.

(** X13.  The message about repeated rows is among the inconsistencies
    exactly when the table has a column and two of its rows are the same;
    a table without columns is never reported, whatever its rows. *)
Theorem duplicate_message_iff (df : Table) :
  msg_duplicadas ∈ inconsistencias df
  ↔ columns df ≠ [] ∧ ¬ NoDup (rows df).
Proof.
  rewrite <- duplicated_any_iff. unfold inconsistencias.
  destruct (isnull_any df), (duplicated_any df); simpl; split; try done.
  - intros _. right. by left.
  - intros Hin. apply list_elem_of_singleton in Hin.
    symmetry in Hin. by apply msg_ne in Hin.
  - intros _. by left.
  - intros Hin. by apply elem_of_nil in Hin.
Qed.

(** X14.  On a cleaned table the check finds nothing or only missing
    values, and it finds nothing exactly when no cell of the cleaned table
    is missing. *)
Theorem inconsistencias_after_clean (df : Table) :
  rectangular df →
  (inconsistencias (clean df) = [] ∨ inconsistencias (clean df) = [msg_ausentes])
  ∧ (inconsistencias (clean df) = []
     ↔ ∀ (r : row) x, r ∈ rows (clean df) → x ∈ r → x ≠ CEmpty).
Proof.
  intros Hrect.
  assert (duplicated_any (clean df) = false) as Hdup.
  { apply not_true_iff_false. rewrite duplicated_any_iff.
    intros [_ Hnd]. by apply Hnd, clean_rows_NoDup. }
  unfold inconsistencias. rewrite Hdup, app_nil_r.
  destruct (isnull_any (clean df)) eqn:Hnull.
  - split; [by right|]. split; [done|]. intros Hall.
    apply isnull_any_iff in Hnull as (r & x & Hr & Hx & ->).
    by destruct (Hall r CEmpty Hr Hx).
  - split; [by left|]. split; [|done]. intros _ r x Hr Hx ->.
    apply not_true_iff_false in Hnull. apply Hnull, isnull_any_iff.
    by exists r, CEmpty.
Qed.

Lemma inconsistencias_after_clean_witness :
  (inconsistencias (clean planilha_suja) = []
   ∨ inconsistencias (clean planilha_suja) = [msg_ausentes])
  ∧ (inconsistencias (clean planilha_suja) = []
     ↔ ∀ (r : row) x, r ∈ rows (clean planilha_suja) → x ∈ r → x ≠ CEmpty).
Proof.
  apply inconsistencias_after_clean. unfold rectangular. by repeat constructor.
Defined.

(** ** More on the aggregation *)

Lemma key1_Some_iff (a : nat) (r : row) (x : cell) :
  key1 a r = Some x ↔ x ≠ CEmpty ∧ cell_at a r = x.
Proof.
  unfold key1. destruct (cell_at a r) eqn:Hc; simpl; split.
  all: try (intros [= <-]; done).
  all: try (intros [Hne <-]; done).
Qed.

Lemma key2_Some_iff (a b : nat) (r : row) (x y : cell) :
  key2 a b r = Some (x, y)
  ↔ x ≠ CEmpty ∧ y ≠ CEmpty ∧ cell_at a r = x ∧ cell_at b r = y.
Proof.
  unfold key2.
  destruct (cell_at a r) eqn:Ha, (cell_at b r) eqn:Hb; simpl; split.
  all: try (intros [= <- <-]; done).
  all: try (intros (Hx & Hy & <- & <-); done).
Qed.

Lemma filter_length_le {A : Type} (P Q : A → Prop)
    `{∀ x, Decision (P x)} `{∀ x, Decision (Q x)} (l : list A) :
  (∀ x, x ∈ l → P x → Q x) → length (filter P l) ≤ length (filter Q l).
Proof.
  induction l as [|x l IH]; intros Himp; [done|].
  rewrite !filter_cons.
  assert (length (filter P l) ≤ length (filter Q l)) as Hle
    by (apply IH; intros y Hy; apply Himp; by right).
  destruct (decide (P x)) as [HP|HP], (decide (Q x)) as [HQ|HQ];
    cbn [length]; try lia.
  exfalso. apply HQ, Himp; [by left | done].
Qed.

Lemma filter_length_split {A : Type} (P Q : A → Prop)
    `{∀ x, Decision (P x)} `{∀ x, Decision (Q x)} (l : list A) :
  length (filter P l)
  = length (filter (λ x, P x ∧ Q x) l) + length (filter (λ x, P x ∧ ¬ Q x) l).
Proof.
  induction l as [|x l IH]; [done|]. rewrite !filter_cons.
  destruct (decide (P x)) as [HP|HP], (decide (Q x)) as [HQ|HQ].
  - rewrite decide_True, decide_False by tauto. cbn [length]. lia.
  - rewrite decide_False, decide_True by tauto. cbn [length]. lia.
  - rewrite !decide_False by tauto. done.
  - rewrite !decide_False by tauto. done.
Qed.

Lemma filter_fmap_commute {A B : Type} (f : A → B) (P : B → Prop)
    `{∀ y, Decision (P y)} (l : list A) :
  filter P (f <$> l) = f <$> filter (λ x, P (f x)) l.
Proof.
  induction l as [|x l IH]; [done|]. csimpl. rewrite !filter_cons, IH.
  by destruct (decide (P (f x))).
Qed.

(** With the three boxes on three columns both key columns are inserted:
    a line holds the unit, the portfolio and the count. *)
Lemma resumo_three_columns (df : Table) (col_u col_c col_p : nat) :
  col_u ≠ col_c → col_p ≠ col_u → col_p ≠ col_c →
  resumo df col_u col_c col_p
  = Some ((λ line : (cell * cell) * nat, ([line.1.1; line.1.2], line.2))
          <$> groupby_count (key2 col_u col_c) pair_leb col_p (rows df)).
Proof.
  intros Huc Hpu Hpc. unfold resumo.
  assert (inserted_keys col_p [col_u; col_c] = Some [col_u; col_c]) as ->.
  { simpl. destruct (decide (col_c = col_p)); [congruence|].
    destruct (decide (col_u = col_p)); [congruence|].
    destruct (decide (col_u ∈ [col_c])) as [Hin|]; [|done].
    apply list_elem_of_singleton in Hin. congruence. }
  f_equal. apply list_fmap_ext. intros i line _. simpl.
  rewrite decide_True by done.
  by rewrite decide_False by (intros ?; by apply Huc).
Qed.

(** The per-unit summary never raises; its lines hold the unit, unless
    the person box is on the unit column, and the count. *)
Lemma resumo_unidade_lines (df : Table) (col_u col_p : nat) :
  resumo_unidade df col_u col_p
  = Some ((λ line : cell * nat,
             (if decide (col_u = col_p) then [] else [line.1], line.2))
          <$> groupby_count (key1 col_u) cell_leb col_p (rows df)).
Proof.
  unfold resumo_unidade. simpl.
  destruct (decide (col_u = col_p)) as [Heq|Hne]; [done|].
  destruct (decide (col_u ∈ [])) as [Hin|_]; [|done].
  by apply elem_of_nil in Hin.
Qed.

(** X15.  With the unit, portfolio and person boxes on three different
    columns, [resumo] has one line per combination, in increasing order of
    (unit, portfolio): the pairs listed are pairwise distinct, they are
    exactly the pairs of values, both present, that some row holds, and
    the count of a line is the number of rows with that unit and that
    portfolio that have a person. *)
Theorem resumo_lines (df : Table) (col_u col_c col_p : nat) :
  col_u ≠ col_c → col_p ≠ col_u → col_p ≠ col_c →
  ∃ lines,
    resumo df col_u col_c col_p = Some lines
    ∧ NoDup (lines.*1)
    ∧ (∀ a b, [a; b] ∈ lines.*1
         ↔ a ≠ CEmpty ∧ b ≠ CEmpty
           ∧ ∃ r : row, r ∈ rows df ∧ cell_at col_u r = a ∧ cell_at col_c r = b)
    ∧ (∀ ks n, (ks, n) ∈ lines →
         ∃ a b, ks = [a; b]
           ∧ n = length (filter (λ r, cell_at col_u r = a ∧ cell_at col_c r = b
                                      ∧ notnull (cell_at col_p r) = true)
                                (rows df)))
    ∧ (∃ keys : list (cell * cell),
         lines.*1 = (λ k, [k.1; k.2]) <$> keys
         ∧ Sorted (λ x y, pair_leb x y = true) keys).
Proof.
  intros Huc Hpu Hpc. eexists. split; [by apply resumo_three_columns|].
  set (L := groupby_count (key2 col_u col_c) pair_leb col_p (rows df)).
  assert (((λ line : (cell * cell) * nat, ([line.1.1; line.1.2], line.2)) <$> L).*1
          = (λ k : cell * cell, [k.1; k.2])
              <$> group_keys (key2 col_u col_c) pair_leb (rows df)) as Hkeys.
  { unfold L. rewrite <- (groupby_count_keys _ _ col_p).
    rewrite <- !list_fmap_compose. by apply list_fmap_ext. }
  rewrite Hkeys. split; [|split; [|split]].
  - apply NoDup_fmap_2_strong; [|apply NoDup_group_keys].
    intros [a b] [a' b'] _ _ [= -> ->]. done.
  - intros a b. rewrite list_elem_of_fmap. split.
    + intros ([a' b'] & [= -> ->] & Hin).
      apply elem_of_group_keys in Hin as (r & Hr & Hk).
      apply key2_Some_iff in Hk as (Ha & Hb & Hu & Hc).
      split; [done|]. split; [done|]. by exists r.
    + intros (Ha & Hb & r & Hr & Hu & Hc). exists (a, b). split; [done|].
      apply elem_of_group_keys. exists r. split; [done|].
      by apply key2_Some_iff.
  - intros ks n Hin. apply list_elem_of_fmap in Hin as ([[a b] n'] & [= -> ->] & Hin).
    exists a, b. split; [done|]. unfold L in Hin.
    apply elem_of_groupby_count in Hin as [Hk ->].
    apply elem_of_group_keys in Hk as (r0 & _ & Hk0).
    apply key2_Some_iff in Hk0 as (Ha & Hb & _ & _).
    f_equal. apply list_filter_iff. intros r. rewrite key2_Some_iff. tauto.
  - eexists. split; [reflexivity|].
    apply Sorted_group_keys, pair_leb_total.
Qed.

Lemma resumo_lines_witness :
  ∃ lines,
    resumo planilha_exemplo 0 1 2 = Some lines
    ∧ NoDup (lines.*1)
    ∧ (∀ a b, [a; b] ∈ lines.*1
         ↔ a ≠ CEmpty ∧ b ≠ CEmpty
           ∧ ∃ r : row, r ∈ rows planilha_exemplo
                        ∧ cell_at 0 r = a ∧ cell_at 1 r = b)
    ∧ (∀ ks n, (ks, n) ∈ lines →
         ∃ a b, ks = [a; b]
           ∧ n = length (filter (λ r, cell_at 0 r = a ∧ cell_at 1 r = b
                                      ∧ notnull (cell_at 2 r) = true)
                                (rows planilha_exemplo)))
    ∧ (∃ keys : list (cell * cell),
         lines.*1 = (λ k, [k.1; k.2]) <$> keys
         ∧ Sorted (λ x y, pair_leb x y = true) keys).
Proof. apply (resumo_lines planilha_exemplo 0 1 2); lia. Defined.

(** X16.  The per-unit summary never raises, and its counts add up to the
    number of rows that have a unit and a person, which is at most the
    count of persons in the whole table.  Whenever line 85 yields the
    per-combination summary, its counts add up to at most that number,
    and to exactly that number when no row lacks a portfolio. *)
Theorem resumo_unidade_total (df : Table) (col_u col_c col_p : nat) :
  ∃ por_unidade,
    resumo_unidade df col_u col_p = Some por_unidade
    ∧ total (por_unidade.*2)
      = length (filter (λ r, notnull (cell_at col_u r) = true
                             ∧ notnull (cell_at col_p r) = true) (rows df))
    ∧ total (por_unidade.*2) ≤ column_count df col_p
    ∧ ∀ lines, resumo df col_u col_c col_p = Some lines →
        total (lines.*2) ≤ total (por_unidade.*2)
        ∧ ((∀ r : row, r ∈ rows df → notnull (cell_at col_c r) = true) →
           total (lines.*2) = total (por_unidade.*2)).
Proof.
  eexists. split; [apply resumo_unidade_lines|].
  set (L := groupby_count (key1 col_u) cell_leb col_p (rows df)).
  assert (((λ line : cell * nat,
              (if decide (col_u = col_p) then [] else [line.1], line.2)) <$> L).*2
          = L.*2) as ->
    by (rewrite <- list_fmap_compose; by apply list_fmap_ext).
  unfold L. clear L.
  assert (total ((groupby_count (key1 col_u) cell_leb col_p (rows df)).*2)
          = length (filter (λ r, notnull (cell_at col_u r) = true
                                 ∧ notnull (cell_at col_p r) = true) (rows df)))
    as Hunit.
  { rewrite groupby_count_total. f_equal.
    apply list_filter_iff. intros r. unfold key1.
    destruct (notnull (cell_at col_u r)); split; intros [Hk Hv]; split;
      try done; try (by eexists); by destruct Hk. }
  split; [done|]. rewrite Hunit. split.
  - unfold column_count. apply filter_length_le. by intros r _ [_ Hv].
  - intros lines Hlines. rewrite (resumo_counts _ _ _ _ _ Hlines).
    rewrite groupby_count_total. split.
    + apply filter_length_le. intros r _ [Hk Hv]. split; [|done].
      by apply key2_is_Some in Hk as [? _].
    + intros Hport. f_equal. apply filter_ext_elem. intros r Hr.
      rewrite key2_is_Some. specialize (Hport r Hr). tauto.
Qed.

(** The count of a unit's group is the sum of the counts of that unit's
    groups by (unit, portfolio), plus the rows of that unit that have a
    person but no portfolio. *)
Lemma groupby_count_splits (rs : list row) (col_u col_c col_p : nat)
    (a : cell) (n : nat) :
  (a, n) ∈ groupby_count (key1 col_u) cell_leb col_p rs →
  n = total ((filter (λ line, line.1.1 = a)
                     (groupby_count (key2 col_u col_c) pair_leb col_p rs)).*2)
      + length (filter (λ r, cell_at col_u r = a ∧ cell_at col_c r = CEmpty
                             ∧ notnull (cell_at col_p r) = true) rs).
Proof.
  intros Hin. apply elem_of_groupby_count in Hin as [Hk ->].
  apply elem_of_group_keys in Hk as (r0 & _ & Hk0).
  apply key1_Some_iff in Hk0 as [Ha _].
  rewrite (filter_length_split _ (λ r, notnull (cell_at col_c r) = true)).
  f_equal.
  - unfold groupby_count. rewrite filter_fmap_commute, <- list_fmap_compose.
    cbn [fst].
    rewrite (Forall_fmap_ext_1 _
      (λ k, length (filter (λ r, key2 col_u col_c r = Some k
                                 ∧ notnull (cell_at col_p r) = true) rs))).
    + rewrite total_group_counts by apply NoDup_filter, NoDup_group_keys.
      f_equal. apply filter_ext_elem. intros r Hr. split.
      * intros [[Hk Hv] Hc]. apply key1_Some_iff in Hk as [_ Hu].
        split; [|done]. apply list_elem_of_fmap.
        exists (a, cell_at col_c r). split.
        -- apply key2_Some_iff. repeat split; try done. by apply notnull_ne.
        -- apply list_elem_of_filter. split; [done|].
           apply elem_of_group_keys. exists r. split; [done|].
           apply key2_Some_iff. repeat split; try done. by apply notnull_ne.
      * intros [Hin Hv]. apply list_elem_of_fmap in Hin as ([x y] & Hk & Hf).
        apply list_elem_of_filter in Hf as [Hx _]. simpl in Hx. subst x.
        apply key2_Some_iff in Hk as (_ & Hy & Hu & Hc).
        split; [split; [|done]|].
        -- by apply key1_Some_iff.
        -- rewrite Hc. by apply notnull_ne.
    + apply Forall_forall. intros k _. simpl. unfold group_rows.
      rewrite list_filter_filter. f_equal. apply list_filter_iff.
      intros r. tauto.
  - f_equal. apply list_filter_iff. intros r. split.
    + intros [[Hk Hv] Hc]. apply key1_Some_iff in Hk as [_ Hu].
      repeat split; try done.
      destruct (cell_at col_c r); try done; exfalso; by apply Hc.
    + intros (Hu & Hc & Hv). split; [split; [|done]|].
      * by apply key1_Some_iff.
      * by rewrite Hc.
Qed.

(** X17.  With the unit, portfolio and person boxes on three different
    columns, the count of a unit in the per-unit summary is the sum of the
    counts of that unit's lines in the per-combination summary, plus the
    rows of that unit that have a person but no portfolio. *)
Theorem resumo_unidade_splits (df : Table) (col_u col_c col_p : nat)
    (lines por_unidade : list (list cell * nat)) (a : cell) (n : nat) :
  col_u ≠ col_c → col_p ≠ col_u → col_p ≠ col_c →
  resumo df col_u col_c col_p = Some lines →
  resumo_unidade df col_u col_p = Some por_unidade →
  ([a], n) ∈ por_unidade →
  n = total ((filter (λ line, head line.1 = Some a) lines).*2)
      + length (filter (λ r, cell_at col_u r = a ∧ cell_at col_c r = CEmpty
                             ∧ notnull (cell_at col_p r) = true) (rows df)).
Proof.
  intros Huc Hpu Hpc Hlines Hunit Hin.
  rewrite resumo_three_columns in Hlines by done. injection Hlines as <-.
  rewrite resumo_unidade_lines in Hunit. injection Hunit as <-.
  apply list_elem_of_fmap in Hin as ([a' n'] & Heq & Hin). simpl in Heq.
  destruct (decide (col_u = col_p)) as [Hup|_]; [by destruct Hpu|].
  injection Heq as -> ->.
  rewrite (groupby_count_splits _ _ col_c _ _ _ Hin). f_equal.
  rewrite filter_fmap_commute, <- list_fmap_compose. cbn [fst head].
  rewrite (list_filter_iff (λ line : cell * cell * nat, Some line.1.1 = Some a')
                           (λ line : cell * cell * nat, line.1.1 = a'))
    by (intros line; split; [by intros [= ?] | by intros ->]).
  done.
Qed.

Lemma resumo_unidade_splits_witness :
  1 = total ((filter (λ line, head line.1 = Some (CStr "A"))
                     [([CStr "A"; CStr "X"], 1)]).*2)
      + length (filter (λ r, cell_at 0 r = CStr "A" ∧ cell_at 1 r = CEmpty
                             ∧ notnull (cell_at 2 r) = true)
                       (rows planilha_sem_unidade)).
Proof.
  apply (resumo_unidade_splits planilha_sem_unidade 0 1 2
           [([CStr "A"; CStr "X"], 1)] [([CStr "A"], 1)]); try lia.
  - reflexivity.
  - reflexivity.
  - by left.
Defined.

(** ** More on the header-row input *)

(** X21.  For a sheet loaded without rows no header row can be chosen at
    all (the input's upper bound is below its lower bound); for any other
    sheet row 0, the default, can be chosen, and row 50 can as soon as
    the sheet has 51 rows. *)
Theorem linha_cabecalho_edges (len_base_dados : nat) :
  (len_base_dados = 0 → ∀ v, linha_cabecalho_allows len_base_dados v = false)
  ∧ (1 ≤ len_base_dados → linha_cabecalho_allows len_base_dados 0 = true)
  ∧ (51 ≤ len_base_dados → linha_cabecalho_allows len_base_dados 50 = true).
Proof.
  unfold linha_cabecalho_allows, number_input_allows. split; [|split].
  - intros -> v. by destruct (0 <=? v)%Z.
  - intros Hlen. rewrite !andb_true_iff, !Z.leb_le. lia.
  - intros Hlen. rewrite !andb_true_iff, !Z.leb_le. lia.
Qed.
